(** * Composite configuration values: a model of guc_composite.c

    The development follows the C file function by function.  Text is a
    list of characters indexed by position (a [char *] into one buffer is
    a position), [int] is a 32-bit two's complement integer carried by
    [Z] with its wrap-around written out, and the values built by the
    parser live in an explicit heap of bounded blocks. *)

From Stdlib Require Import ZArith List Ascii String Bool Lia Arith.
From Stdlib Require Import Floats.SpecFloat.
Import ListNotations.
Open Scope Z_scope.

(** ** Characters and text *)

Definition text := list ascii.

Definition str (s : string) : text := list_ascii_of_string s.

Definition NUL : ascii := Ascii.zero.

(** [*(buf + i)]: the buffer is followed by its terminator. *)
Definition chr_at (buf : text) (i : nat) : ascii := nth i buf NUL.

Definition set_chr (buf : text) (i : nat) (c : ascii) : text :=
  firstn i buf ++ match skipn i buf with [] => [] | _ :: rest => c :: rest end.

Fixpoint text_eqb (a b : text) : bool :=
  match a, b with
  | [], [] => true
  | x :: a', y :: b' => Ascii.eqb x y && text_eqb a' b'
  | _, _ => false
  end.

(** The C string that starts at a position: everything up to the first
    terminator. *)
Fixpoint cstr (l : text) : text :=
  match l with
  | [] => []
  | c :: rest => if Ascii.eqb c NUL then [] else c :: cstr rest
  end.

Definition cstr_at (buf : text) (i : nat) : text := cstr (skipn i buf).

(** [strncpy] of [len] characters from position [i], then a terminator. *)
Definition substr (buf : text) (i len : nat) : text :=
  cstr (firstn len (skipn i buf)).

Definition isspace (c : ascii) : bool :=
  let n := nat_of_ascii c in
  (Nat.eqb n 32 || (Nat.leb 9 n && Nat.leb n 13))%bool.

Definition isdigit (c : ascii) : bool :=
  let n := nat_of_ascii c in (Nat.leb 48 n && Nat.leb n 57)%bool.

Definition digit_val (c : ascii) : Z := Z.of_nat (nat_of_ascii c) - 48.

(** ** The type [int] *)

Definition int_max : Z := 2147483647.
Definition int_min : Z := -2147483648.

Definition wrap (z : Z) : Z := (z + 2147483648) mod 4294967296 - 2147483648.

Definition in_int (z : Z) : Prop := int_min <= z <= int_max.

(** C's [%] truncates towards zero. *)
Definition c_mod (a b : Z) : Z := Z.rem a b.

Definition long_max : Z := 9223372036854775807.

Fixpoint digits_val (l : text) (acc : Z) : Z :=
  match l with
  | [] => acc
  | c :: rest => if isdigit c then digits_val rest (acc * 10 + digit_val c) else acc
  end.

Fixpoint skip_spaces (l : text) : text :=
  match l with
  | [] => []
  | c :: rest => if isspace c then skip_spaces rest else l
  end.

(** [atoi]: leading white space, an optional sign, then digits; the value
    is that of [strtol] (saturating at the range of [long]) cut to [int]. *)
Definition atoi (l : text) : Z :=
  match skip_spaces (cstr l) with
  | c :: rest =>
      if Ascii.eqb c "-" then wrap (Z.max (- long_max - 1) (- digits_val rest 0))
      else if Ascii.eqb c "+" then wrap (Z.min long_max (digits_val rest 0))
      else wrap (Z.min long_max (digits_val (c :: rest) 0))
  | [] => 0
  end.

(** [strchr]: position of the first occurrence. *)
Fixpoint strchr (l : text) (c : ascii) : option nat :=
  match l with
  | [] => None
  | x :: rest =>
      if Ascii.eqb x c then Some O
      else match strchr rest c with Some n => Some (S n) | None => None end
  end.

(** ** Parser results *)

Inductive parser_status := PARSER_OK | PARSER_FAIL | PARSER_ERR | PARSER_NOT_FOUND.

Definition status_eqb (a b : parser_status) : bool :=
  match a, b with
  | PARSER_OK, PARSER_OK | PARSER_FAIL, PARSER_FAIL
  | PARSER_ERR, PARSER_ERR | PARSER_NOT_FOUND, PARSER_NOT_FOUND => true
  | _, _ => false
  end.

(** [struct parser_res].  [res_str] is used by the C code both for a
    position in the scanned buffer and for a freshly allocated name; the
    two uses are kept apart as [res_str] and [res_name].  A null
    [parse_end] is position 0, which is never a delimiter. *)
Record parser_res := mk_res {
  status : parser_status;
  res_int : Z;
  res_str : nat;
  res_name : text;
  parse_end : nat
}.

(** [parser_res result = {};] *)
Definition res0 : parser_res := mk_res PARSER_OK 0 O [] O.

Definition with_status (r : parser_res) (s : parser_status) : parser_res :=
  mk_res s (res_int r) (res_str r) (res_name r) (parse_end r).

(** ** Lexical scanner *)

Record scan_state := mk_scan {
  braces_cntr : Z;
  brackets_cntr : Z;
  in_str : bool;
  quote_cntr : bool
}.

Definition scan0 : scan_state := mk_scan 0 0 false false.

(** One turn of the loop body of [find_same_level_symbol] below the test
    for the wanted symbol; [next] is [*(c+1)]. *)
Definition scan_step (c next : ascii) (s : scan_state) : scan_state :=
  if (Ascii.eqb c "{" && negb (in_str s))%bool then
    mk_scan (braces_cntr s + 1) (brackets_cntr s) (in_str s) (quote_cntr s)
  else if (Ascii.eqb c "}" && negb (in_str s))%bool then
    mk_scan (braces_cntr s - 1) (brackets_cntr s) (in_str s) (quote_cntr s)
  else if (Ascii.eqb c "[" && negb (in_str s))%bool then
    mk_scan (braces_cntr s) (brackets_cntr s + 1) (in_str s) (quote_cntr s)
  else if (Ascii.eqb c "]" && negb (in_str s))%bool then
    mk_scan (braces_cntr s) (brackets_cntr s - 1) (in_str s) (quote_cntr s)
  else if Ascii.eqb c "'" then
    let q := negb (quote_cntr s) in
    if (in_str s && q && negb (Ascii.eqb next "'"))%bool then
      mk_scan (braces_cntr s) (brackets_cntr s) false false
    else if negb (in_str s) then
      mk_scan (braces_cntr s) (brackets_cntr s) true false
    else mk_scan (braces_cntr s) (brackets_cntr s) (in_str s) q
  else s.

Definition at_level0 (s : scan_state) : bool :=
  (negb (in_str s) && (braces_cntr s =? 0) && (brackets_cntr s =? 0))%bool.

(** The [for] loop: returns the position where the cursor stops. *)
Fixpoint scan_from (l : text) (symbol : ascii) (s : scan_state) (pos : nat) : nat :=
  match l with
  | [] => pos
  | c :: rest =>
      if Ascii.eqb c NUL then pos
      else if (Ascii.eqb c symbol && at_level0 s)%bool then pos
      else
        let s' := scan_step c (hd NUL rest) s in
        if ((braces_cntr s' <? 0) || (brackets_cntr s' <? 0))%bool then pos
        else scan_from rest symbol s' (S pos)
  end.

Definition find_same_level_symbol (buf : text) (start : nat) (symbol : ascii)
  : parser_res :=
  let c := scan_from (skipn start buf) symbol scan0 start in
  mk_res (if Ascii.eqb (chr_at buf c) symbol then PARSER_OK else PARSER_NOT_FOUND)
         0 c [] O.

(** ** Type names *)

Definition is_static_array_type (type_name : text) : bool :=
  match strchr type_name "[" with
  | None => false
  | Some i =>
      match strchr type_name "]" with
      | None => false
      | Some _ => 0 <? atoi (skipn (S i) type_name)
      end
  end.

Definition is_dynamic_array_type (type_name : text) : bool :=
  match strchr type_name "[" with
  | None => false
  | Some i =>
      match strchr type_name "]" with
      | None => false
      | Some _ => atoi (skipn (S i) type_name) <=? 0
      end
  end.

Definition get_static_array_size (type_name : text) : Z :=
  match strchr type_name "[" with
  | None => -1
  | Some i => atoi (skipn (S i) type_name)
  end.

(** The element type: the name with its first bracket group removed. *)
Definition get_array_basic_type (array_type : text) : option text :=
  match strchr array_type "[" with
  | None => None
  | Some i =>
      match strchr (skipn i array_type) "]" with
      | None => None
      | Some j => Some (firstn i array_type ++ skipn (S (i + j)) array_type)
      end
  end.

Definition is_atomic_type (type : text) : bool :=
  (text_eqb type (str "bool") || text_eqb type (str "int") ||
   text_eqb type (str "real") || text_eqb type (str "string"))%bool.

(** [canonize_idx]: -1 unless the first significant character is a digit. *)
Fixpoint skip_blank (l : text) : text :=
  match l with
  | [] => []
  | c :: rest =>
      if (Ascii.eqb c " " || Ascii.eqb c "009" || Ascii.eqb c "011" ||
          Ascii.eqb c "010")%bool
      then skip_blank rest else l
  end.

Definition canonize_idx (field : text) : Z :=
  match skip_blank field with
  | c :: _ => if isdigit c then atoi field else -1
  | [] => -1
  end.

(** ** Type registry *)

(** [struct struct_field] and [struct type_definition] are declared in
    utils/guc.h; the records list the members the C file reads and
    writes.  [fields] holds the initialised slots of the C array, in
    order; [cnt_fields] is the stored count. *)
Record struct_field := mk_field { sf_type : text; sf_name : text }.

Record type_definition := mk_def {
  td_type : text;
  signature : text;
  cnt_fields : Z;
  fields : list struct_field;
  type_size : Z;
  offset : Z
}.

(** [guc_types_hashtab], keyed by type name. *)
Definition registry := list type_definition.

Fixpoint get_type_definition (reg : registry) (type_name : text)
  : option type_definition :=
  match reg with
  | [] => None
  | d :: rest =>
      if text_eqb (td_type d) type_name then Some d
      else get_type_definition rest type_name
  end.

(** [sizeof(void * )] on the LP64 host. *)
Definition sizeof_ptr : Z := 8.

(** ** Layout calculator *)

Section Layout.

Variable reg : registry.

Definition get_struct_size (type_name : text) : Z :=
  match get_type_definition reg type_name with
  | Some d => type_size d
  | None => -1
  end.

Definition get_struct_offset (type_name : text) : Z :=
  match get_type_definition reg type_name with
  | Some d => offset d
  | None => -1
  end.

(** [get_type_offset] with [get_array_offset] inlined.  The recursion
    follows the element type, which is a shorter name; [fuel] bounds it. *)
Fixpoint get_type_offset_aux (fuel : nat) (type_name : option text) : Z :=
  match type_name with
  | None => -1
  | Some t =>
      if is_dynamic_array_type t then sizeof_ptr
      else if is_static_array_type t then
        match fuel with
        | O => -1
        | S f =>
            match get_array_basic_type t with
            | None => -1
            | Some b =>
                let element_offset := get_type_offset_aux f (Some b) in
                if element_offset <? 0 then -1 else element_offset
            end
        end
      else get_struct_offset t
  end.

(** [get_type_size] with [get_array_mem_size] inlined. *)
Fixpoint get_type_size_aux (fuel : nat) (type_name : option text) : Z :=
  match type_name with
  | None => -1
  | Some t =>
      if is_dynamic_array_type t then sizeof_ptr * 2
      else if is_static_array_type t then
        match fuel with
        | O => -1
        | S f =>
            let basic_type := get_array_basic_type t in
            let element_offset := get_type_offset_aux f basic_type in
            let element_size := get_type_size_aux f basic_type in
            if ((element_offset <? 0) || (element_size <? 0))%bool then -1
            else wrap (get_static_array_size t *
                       (element_size + c_mod element_size element_offset))
        end
      else get_struct_size t
  end.

Definition get_type_offset_opt (type_name : option text) : Z :=
  get_type_offset_aux (match type_name with Some t => List.length t | None => O end)
                      type_name.

Definition get_type_size_opt (type_name : option text) : Z :=
  get_type_size_aux (match type_name with Some t => List.length t | None => O end)
                    type_name.

Definition get_type_offset (type_name : text) : Z :=
  get_type_offset_opt (Some type_name).

Definition get_type_size (type_name : text) : Z :=
  get_type_size_opt (Some type_name).

Definition get_dynamic_array_mem_size_with_length (type_name : text) (len : Z)
  : Z :=
  match get_array_basic_type type_name with
  | None => -1
  | Some basic_type =>
      let element_offset := get_type_offset basic_type in
      let element_size := get_type_size basic_type in
      if ((element_offset <? 0) || (element_size <? 0))%bool then -1
      else wrap (len * (element_size + c_mod element_size element_offset))
  end.

Definition get_element_offset_with_index (type_name : text) (index : Z) : Z :=
  match get_array_basic_type type_name with
  | None => -1
  | Some basic_type =>
      let element_offset := get_type_offset basic_type in
      let element_size := get_type_size basic_type in
      if ((element_offset <? 0) || (element_size <? 0))%bool then -1
      else
        let rest := c_mod element_size element_offset in
        wrap ((element_size + rest) * index)
  end.

Definition get_array_element_offset (type_name field : text) : Z :=
  let field_idx := canonize_idx field in
  if field_idx <? 0 then -1
  else get_element_offset_with_index type_name field_idx.

(** Rounding the running offset up to the alignment of the next field. *)
Definition align_up (total_offset local_off : Z) : Z :=
  if c_mod total_offset local_off =? 0 then total_offset
  else wrap (total_offset + (local_off - c_mod total_offset local_off)).

(** The loop of [get_struct_field_offset]: [n] slots remain, [fs] are the
    initialised ones among them.  Reading a slot that was never
    initialised is undefined in C; the model answers -1 there. *)
Fixpoint struct_field_offset_loop (fs : list struct_field) (n : nat)
  (total_offset : Z) (field : text) : Z :=
  match n, fs with
  | S n', f :: rest =>
      let local_off := get_type_offset (sf_type f) in
      if local_off <? 0 then -1
      else
        let total_offset := align_up total_offset local_off in
        if text_eqb (sf_name f) field then total_offset
        else
          let increment := get_type_size (sf_type f) in
          struct_field_offset_loop rest n' (wrap (total_offset + increment)) field
  | _, _ => -1
  end.

Definition get_struct_field_offset (type_name field : text) : Z :=
  match get_type_definition reg type_name with
  | None => -1
  | Some struct_type =>
      struct_field_offset_loop (fields struct_type)
        (Z.to_nat (cnt_fields struct_type)) 0 field
  end.

Definition get_field_offset (type_name field : text) : Z :=
  if (is_dynamic_array_type type_name && text_eqb field (str "data"))%bool then 0
  else if (is_dynamic_array_type type_name && text_eqb field (str "size"))%bool
  then sizeof_ptr
  else if (is_static_array_type type_name || is_dynamic_array_type type_name)%bool
  then get_array_element_offset type_name field
  else get_struct_field_offset type_name field.

Fixpoint struct_field_type_loop (fs : list struct_field) (n : nat) (field : text)
  : option text :=
  match n, fs with
  | S n', f :: rest =>
      if text_eqb field (sf_name f) then Some (sf_type f)
      else struct_field_type_loop rest n' field
  | _, _ => None
  end.

Definition get_struct_field_type (type_name field : text) : option text :=
  match get_type_definition reg type_name with
  | None => None
  | Some struct_type =>
      struct_field_type_loop (fields struct_type)
        (Z.to_nat (cnt_fields struct_type)) field
  end.

Definition get_field_type_name (type_name field : text) : option text :=
  if (is_dynamic_array_type type_name && text_eqb field (str "size"))%bool
  then Some (str "int")
  else if (is_dynamic_array_type type_name && text_eqb field (str "data"))%bool
  then Some type_name
  else if (is_static_array_type type_name || is_dynamic_array_type type_name)%bool
  then get_array_basic_type type_name
  else get_struct_field_type type_name field.

(** *** Registration *)

(** [strtok_r]: the maximal runs of characters outside [delim]. *)
Fixpoint tokens_aux (delim : ascii -> bool) (l : text) (cur : text) : list text :=
  match l with
  | [] => match cur with [] => [] | _ => [rev cur] end
  | c :: rest =>
      if delim c then
        match cur with
        | [] => tokens_aux delim rest []
        | _ => rev cur :: tokens_aux delim rest []
        end
      else tokens_aux delim rest (c :: cur)
  end.

Definition strtok_all (delim : ascii -> bool) (l : text) : list text :=
  tokens_aux delim (cstr l) [].

Definition def_del (c : ascii) : bool := Ascii.eqb c ";".

Definition word_del (c : ascii) : bool :=
  (Ascii.eqb c " " || Ascii.eqb c "009" || Ascii.eqb c "010" || Ascii.eqb c "011")%bool.

Fixpoint count_delims (l : text) : Z :=
  match l with
  | [] => 0
  | c :: rest => (if def_del c then 1 else 0) + count_delims rest
  end.

Inductive init_result :=
| InitOk (d : type_definition)
| InitError       (* ereport(ERROR, ...) *)
| InitFault.      (* division by zero *)

(** The loop over the field definitions: running [(fields, max_offset,
    curr_offset)], or [None] once [ereport(ERROR)] is raised. *)
Fixpoint init_fields (defs : list text) (acc : list struct_field)
  (max_offset curr_offset : Z) : option (list struct_field * Z * Z) :=
  match defs with
  | [] => Some (rev acc, max_offset, curr_offset)
  | field_def_token :: rest =>
      match strtok_all word_del field_def_token with
      | [type_word; name_word] =>
          let type_offset := get_type_offset type_word in
          let type_size := get_type_size type_word in
          if ((type_offset <? 0) || (type_size <? 0))%bool then None
          else
            let max_offset :=
              if max_offset <? type_offset then type_offset else max_offset in
            let curr_offset := align_up curr_offset type_offset in
            init_fields rest (mk_field type_word name_word :: acc)
                        max_offset (wrap (curr_offset + type_size))
      | _ => None
      end
  end.

Definition init_type_definition (definition : type_definition) : init_result :=
  match cstr (signature definition) with
  | [] => InitError
  | sym =>
      let count_fields := wrap (1 + count_delims sym) in
      match init_fields (strtok_all def_del sym) [] 0 0 with
      | None => InitError
      | Some (fs, max_offset, curr_offset) =>
          if max_offset =? 0 then InitFault
          else
            InitOk (mk_def (td_type definition) (signature definition)
                           count_fields fs
                           (align_up curr_offset max_offset) max_offset)
      end
  end.

End Layout.

(** Modelled from the spec: the four atomic types are in the registry
    before any record is declared, without fields and with the host's
    size and alignment ([bool] one byte, [int] four, [real] a double,
    [string] one pointer); the code that enters them is not part of the
    sources. *)
Definition atomic_types : registry :=
  [ mk_def (str "bool") [] 0 [] 1 1;
    mk_def (str "int") [] 0 [] 4 4;
    mk_def (str "real") [] 0 [] 8 8;
    mk_def (str "string") [] 0 [] 8 8 ].

(** Modelled from the spec: [register_type] computes the layout with
    [init_type_definition] and enters the definition under its name; a
    name that is already registered is refused.  The caller that does this
    around [init_type_definition] is not part of the sources. *)
Definition register_type (reg : registry) (name sig : text) : option registry :=
  match get_type_definition reg name with
  | Some _ => None
  | None =>
      match init_type_definition reg (mk_def name sig 0 [] 0 0) with
      | InitOk d => Some (d :: reg)
      | _ => None
      end
  end.

Definition register_all (reg : registry) (decls : list (text * text))
  : option registry :=
  fold_left (fun r d => match r with
                        | Some r => register_type r (fst d) (snd d)
                        | None => None
                        end) decls (Some reg).

Definition demo_registry : registry :=
  match register_all atomic_types
          [ (str "node", str "string name; string ip; int port");
            (str "cluster", str "string name; int size; node[10] nodes") ] with
  | Some r => r
  | None => []
  end.

Example demo_layout :
  (get_type_size demo_registry (str "node"),
   get_type_size demo_registry (str "cluster"),
   get_field_offset demo_registry (str "cluster") (str "nodes"),
   get_field_offset demo_registry (str "node") (str "port"),
   get_element_offset_with_index demo_registry (str "node[10]") 10)
  = (24, 256, 16, 16, 240).
Proof. vm_compute. reflexivity. Qed.

(** ** Memory *)

(** A pointer is null or a block and a byte offset in it. *)
Definition pointer := option (nat * Z).

Definition ptr_add (p : pointer) (off : Z) : pointer :=
  match p with
  | Some (b, o) => Some (b, o + off)
  | None => None
  end.

(** [double] is carried by [spec_float] at binary64. *)
Definition real := spec_float.
Definition real_zero : real := S754_zero false.
Definition real_sub : real -> real -> real := SFsub 53 1024.
Definition real_eqb : real -> real -> bool := SFeqb.
Definition real_ltb : real -> real -> bool := SFltb.

Inductive scalar :=
| SBool (b : bool)
| SInt (z : Z)
| SReal (r : real)
| SPtr (b : nat) (o : Z).

Definition real_same (a b : real) : bool :=
  match a, b with
  | S754_zero s, S754_zero s' => Bool.eqb s s'
  | S754_infinity s, S754_infinity s' => Bool.eqb s s'
  | S754_nan, S754_nan => true
  | S754_finite s m e, S754_finite s' m' e' =>
      (Bool.eqb s s' && Pos.eqb m m' && Z.eqb e e')%bool
  | _, _ => false
  end.

Definition scalar_eqb (a b : scalar) : bool :=
  match a, b with
  | SBool x, SBool y => Bool.eqb x y
  | SInt x, SInt y => Z.eqb x y
  | SReal x, SReal y => real_same x y
  | SPtr b o, SPtr b' o' => (Nat.eqb b b' && Z.eqb o o')%bool
  | _, _ => false
  end.

(** A byte is uninitialised, zero, or the [k]-th byte of a scalar whose
    representation is not all zero bits. *)
Inductive mbyte :=
| Undef
| Zero
| Frag (v : scalar) (k : nat).

Inductive block :=
| BData (bytes : list mbyte)   (* [guc_malloc] *)
| BStr (s : text)              (* [guc_strdup] *)
| BFreed.

Definition heap := list block.

Inductive fault :=
| OutOfFuel
| BadAccess        (* access outside a live block, or to bytes that hold no such value *)
| BadFree          (* [guc_free] of what is not a live allocation *)
| OutOfMemory      (* [guc_malloc(ERROR, ...)] gives up *)
| Uninitialised.   (* a slot of [fields] that was never set *)

Inductive res (A : Type) :=
| Ok (a : A) (h : heap)
| Fail (f : fault).

Arguments Ok {A} a h.
Arguments Fail {A} f.

Definition M (A : Type) : Type := heap -> res A.

Definition ret {A} (a : A) : M A := fun h => Ok a h.

Definition bind {A B} (m : M A) (k : A -> M B) : M B :=
  fun h => match m h with
           | Ok a h' => k a h'
           | Fail f => Fail f
           end.

Definition fail {A} (f : fault) : M A := fun _ => Fail f.

Declare Scope mem_scope.
Delimit Scope mem_scope with mem.
Notation "x <- c1 ;; c2" := (bind c1 (fun x => c2))
  (at level 61, c1 at next level, right associativity) : mem_scope.
Notation "' pat <- c1 ;; c2" := (bind c1 (fun x => match x with pat => c2 end))
  (at level 61, pat pattern, c1 at next level, right associativity) : mem_scope.
Notation "c1 ;; c2" := (bind c1 (fun _ => c2))
  (at level 61, right associativity) : mem_scope.
Open Scope mem_scope.

Definition get_heap : M heap := fun h => Ok h h.

Fixpoint upd_nth {A} (l : list A) (n : nat) (x : A) : list A :=
  match l, n with
  | [], _ => []
  | _ :: rest, O => x :: rest
  | y :: rest, S n' => y :: upd_nth rest n' x
  end.

(** Overwrite [l] from position [n] on with the elements of [src]. *)
Fixpoint blit {A} (l : list A) (n : nat) (src : list A) : list A :=
  match n, l with
  | O, _ => src ++ skipn (List.length src) l
  | S n', x :: rest => x :: blit rest n' src
  | S _, [] => []
  end.

Definition in_bounds (o : Z) (n : nat) (len : nat) : bool :=
  ((0 <=? o) && (o + Z.of_nat n <=? Z.of_nat len))%bool.

Definition load_bytes (p : pointer) (n : nat) : M (list mbyte) :=
  fun h =>
    match p with
    | Some (b, o) =>
        match nth_error h b with
        | Some (BData bytes) =>
            if in_bounds o n (List.length bytes)
            then Ok (firstn n (skipn (Z.to_nat o) bytes)) h
            else Fail BadAccess
        | _ => Fail BadAccess
        end
    | None => Fail BadAccess
    end.

Definition store_bytes (p : pointer) (bs : list mbyte) : M unit :=
  fun h =>
    match p with
    | Some (b, o) =>
        match nth_error h b with
        | Some (BData bytes) =>
            if in_bounds o (List.length bs) (List.length bytes)
            then Ok tt (upd_nth h b (BData (blit bytes (Z.to_nat o) bs)))
            else Fail BadAccess
        | _ => Fail BadAccess
        end
    | None => Fail BadAccess
    end.

Definition frags (v : scalar) (n : nat) : list mbyte := map (Frag v) (seq 0 n).

Fixpoint all_zero (bs : list mbyte) : bool :=
  match bs with
  | [] => true
  | Zero :: rest => all_zero rest
  | _ :: _ => false
  end.

Fixpoint is_frags (v : scalar) (k : nat) (bs : list mbyte) : bool :=
  match bs with
  | [] => true
  | Frag v' k' :: rest => (scalar_eqb v v' && Nat.eqb k k' && is_frags v (S k) rest)%bool
  | _ :: _ => false
  end.

(** What [n] bytes hold: [Some None] for zero bits, [Some (Some v)] for
    the bytes of [v], [None] otherwise. *)
Definition decode (bs : list mbyte) : option (option scalar) :=
  if all_zero bs then Some None
  else match bs with
       | Frag v O :: rest => if is_frags v 1 rest then Some (Some v) else None
       | _ => None
       end.

Definition load_scalar (p : pointer) (n : nat) : M (option scalar) :=
  bs <- load_bytes p n ;;
  match decode bs with
  | Some v => ret v
  | None => fail BadAccess
  end.

Definition load_int (p : pointer) : M Z :=
  v <- load_scalar p 4 ;;
  match v with
  | None => ret 0
  | Some (SInt z) => ret z
  | Some _ => fail BadAccess
  end.

Definition load_bool (p : pointer) : M bool :=
  v <- load_scalar p 1 ;;
  match v with
  | None => ret false
  | Some (SBool b) => ret b
  | Some _ => fail BadAccess
  end.

Definition load_real (p : pointer) : M real :=
  v <- load_scalar p 8 ;;
  match v with
  | None => ret real_zero
  | Some (SReal r) => ret r
  | Some _ => fail BadAccess
  end.

Definition load_ptr (p : pointer) : M pointer :=
  v <- load_scalar p 8 ;;
  match v with
  | None => ret None
  | Some (SPtr b o) => ret (Some (b, o))
  | Some _ => fail BadAccess
  end.

Definition store_int (p : pointer) (z : Z) : M unit :=
  store_bytes p (if z =? 0 then repeat Zero 4 else frags (SInt z) 4).

Definition store_bool (p : pointer) (b : bool) : M unit :=
  store_bytes p (if b then frags (SBool true) 1 else repeat Zero 1).

Definition store_real (p : pointer) (r : real) : M unit :=
  store_bytes p (if real_same r real_zero then repeat Zero 8 else frags (SReal r) 8).

Definition store_ptr (p : pointer) (q : pointer) : M unit :=
  store_bytes p (match q with
                 | None => repeat Zero 8
                 | Some (b, o) => frags (SPtr b o) 8
                 end).

(** [guc_malloc(ERROR, n)]: a fresh block of [n] uninitialised bytes. *)
Definition guc_malloc (n : Z) : M pointer :=
  fun h =>
    if n <? 0 then Fail OutOfMemory
    else Ok (Some (List.length h, 0)) (h ++ [BData (repeat Undef (Z.to_nat n))]).

(** [guc_strdup(ERROR, s)] *)
Definition guc_strdup (s : text) : M pointer :=
  fun h => Ok (Some (List.length h, 0)) (h ++ [BStr s]).

(** Reading the C string a pointer refers to. *)
Definition load_str (p : pointer) : M text :=
  fun h =>
    match p with
    | Some (b, 0) =>
        match nth_error h b with
        | Some (BStr s) => Ok s h
        | _ => Fail BadAccess
        end
    | _ => Fail BadAccess
    end.

(** [guc_free]: null is ignored. *)
Definition guc_free (p : pointer) : M unit :=
  fun h =>
    match p with
    | None => Ok tt h
    | Some (b, 0) =>
        match nth_error h b with
        | Some (BData _) | Some (BStr _) => Ok tt (upd_nth h b BFreed)
        | _ => Fail BadFree
        end
    | Some _ => Fail BadFree
    end.

Definition memcpy (dst src : pointer) (n : Z) : M unit :=
  if n =? 0 then ret tt
  else if n <? 0 then fail BadAccess
  else bs <- load_bytes src (Z.to_nat n) ;; store_bytes dst bs.

Definition memset0 (dst : pointer) (n : Z) : M unit :=
  if n =? 0 then ret tt
  else if n <? 0 then fail BadAccess
  else store_bytes dst (repeat Zero (Z.to_nat n)).

(** [dynamic_array_size(ptr)]: the [int] after the data pointer. *)
Definition dynamic_array_size (p : pointer) : M Z := load_int (ptr_add p sizeof_ptr).

(** [for (int i = 0; i < n; i++)] *)
Definition zrange (n : Z) : list Z := map Z.of_nat (seq 0 (Z.to_nat n)).

Fixpoint for_each {A} (l : list A) (body : A -> M unit) : M unit :=
  match l with
  | [] => ret tt
  | x :: rest => body x ;; for_each rest body
  end.

(** The slots [fields[0 .. cnt_fields-1]] of a definition. *)
Definition field_slots (d : type_definition) : list (option struct_field) :=
  map (fun i => nth_error (fields d) i) (seq 0 (Z.to_nat (cnt_fields d))).

Definition slot (s : option struct_field) : M struct_field :=
  match s with
  | Some f => ret f
  | None => fail Uninitialised
  end.

(** ** Environment *)

(** The globals of the C file and the host routines it calls.  The atomic
    parsers, the quote escaping and the formatting of a [double] belong
    to the host and are parameters of the model. *)
Record env := mk_env {
  guc_types_hashtab : registry;
  expand_array_view_thd : Z;
  parse_bool : text -> option bool;
  parse_int : text -> Z -> option Z;
  parse_real : text -> Z -> option real;
  DeescapeQuotedString : text -> text;
  escape_single_quotes_ascii : text -> text;
  real_to_str : real -> text
}.

(** A type name that may be null; using a null name is a fault. *)
Definition with_type {A} (t : option text) (k : text -> M A) : M A :=
  match t with
  | Some t => k t
  | None => fail BadAccess
  end.

(** [strcmp] on unsigned characters. *)
Fixpoint strcmp (a b : text) : Z :=
  match a, b with
  | [], [] => 0
  | [], y :: _ => - Z.of_nat (nat_of_ascii y)
  | x :: _, [] => Z.of_nat (nat_of_ascii x)
  | x :: a', y :: b' =>
      if Ascii.eqb x y then strcmp a' b'
      else Z.of_nat (nat_of_ascii x) - Z.of_nat (nat_of_ascii y)
  end.

Definition sign (res : Z) : Z :=
  if res =? 0 then 0 else if 0 <? res then 1 else -1.

(** A loop that stops at the first non-zero result. *)
Fixpoint cmp_loop {A} (l : list A) (body : A -> M Z) : M Z :=
  match l with
  | [] => ret 0
  | x :: rest => res <- body x ;; if res =? 0 then cmp_loop rest body else ret res
  end.

(** ** Reflective walker *)

Section Walker.

Variable E : env.

Let reg := guc_types_hashtab E.

(** *** Duplicate *)

Definition static_array_duplicate (rec : pointer -> pointer -> text -> M unit)
  (dest_struct src_struct : pointer) (type : text) : M unit :=
  let basic_type := get_array_basic_type type in
  let arr_size := get_static_array_size type in
  for_each (zrange arr_size) (fun i =>
    with_type basic_type
      (rec (ptr_add dest_struct (get_element_offset_with_index reg type i))
           (ptr_add src_struct (get_element_offset_with_index reg type i)))).

Definition dynamic_array_duplicate (rec : pointer -> pointer -> text -> M unit)
  (dest_struct src_struct : pointer) (type : text) : M unit :=
  let basic_type := get_array_basic_type type in
  arr_size <- dynamic_array_size src_struct ;;
  let arr_mem_size := get_dynamic_array_mem_size_with_length reg type arr_size in
  if arr_size =? 0 then
    store_ptr dest_struct None ;;
    store_ptr (ptr_add dest_struct sizeof_ptr) None
  else
    datap <- load_ptr src_struct ;;
    dstp <- guc_malloc arr_mem_size ;;
    store_ptr dest_struct dstp ;;
    for_each (zrange arr_size) (fun i =>
      with_type basic_type
        (rec (ptr_add dstp (get_element_offset_with_index reg type i))
             (ptr_add datap (get_element_offset_with_index reg type i)))) ;;
    store_int (ptr_add dest_struct 8) arr_size.

Definition struct_duplicate (rec : pointer -> pointer -> text -> M unit)
  (dest_struct src_struct : pointer) (type : text) : M unit :=
  match get_type_definition reg type with
  | None => ret tt
  | Some struct_type =>
      if cnt_fields struct_type =? 0 then
        if text_eqb type (str "string") then
          p <- load_ptr src_struct ;;
          match p with
          | Some _ =>
              s <- load_str p ;;
              q <- guc_strdup s ;;
              store_ptr dest_struct q
          | None => store_ptr dest_struct None
          end
        else memcpy dest_struct src_struct (type_size struct_type)
      else
        for_each (field_slots struct_type) (fun s =>
          f <- slot s ;;
          let field_offset := get_field_offset reg type (sf_name f) in
          rec (ptr_add dest_struct field_offset)
              (ptr_add src_struct field_offset) (sf_type f))
  end.

Fixpoint struct_dup_impl (fuel : nat) (dest_struct src_struct : pointer)
  (type : text) : M unit :=
  match fuel with
  | O => fail OutOfFuel
  | S f =>
      if is_static_array_type type then
        static_array_duplicate (struct_dup_impl f) dest_struct src_struct type
      else if is_dynamic_array_type type then
        dynamic_array_duplicate (struct_dup_impl f) dest_struct src_struct type
      else struct_duplicate (struct_dup_impl f) dest_struct src_struct type
  end.

Definition struct_dup (fuel : nat) (structp : pointer) (type : text) : M pointer :=
  match structp with
  | None => ret None
  | Some _ =>
      let struct_size := get_type_size reg type in
      duplicate <- guc_malloc struct_size ;;
      struct_dup_impl fuel duplicate structp type ;;
      ret duplicate
  end.

(** *** Compare *)

Definition array_data_cmp (rec : pointer -> pointer -> text -> M Z)
  (first second : pointer) (type : text) (size : Z) : M Z :=
  let base_type := get_array_basic_type type in
  let base_type_size := get_type_size_opt reg base_type in
  cmp_loop (zrange size) (fun i =>
    with_type base_type
      (rec (ptr_add first (wrap (base_type_size * i)))
           (ptr_add second (wrap (base_type_size * i))))).

Definition dynamic_array_cmp (rec : pointer -> pointer -> text -> M Z)
  (first second : pointer) (type : text) : M Z :=
  first_data <- load_ptr first ;;
  second_data <- load_ptr second ;;
  first_size <- dynamic_array_size first ;;
  second_size <- dynamic_array_size second ;;
  let cmp := wrap (first_size - second_size) in
  if negb (cmp =? 0) then ret cmp
  else array_data_cmp rec first_data second_data type first_size.

Definition structure_cmp (rec : pointer -> pointer -> text -> M Z)
  (first second : pointer) (type : text) : M Z :=
  match get_type_definition reg type with
  | None => ret 2
  | Some struct_type =>
      if cnt_fields struct_type =? 0 then
        if text_eqb type (str "string") then
          p <- load_ptr first ;;
          q <- load_ptr second ;;
          match p, q with
          | None, None => ret 0
          | None, Some _ => ret (-1)
          | Some _, None => ret 1
          | Some _, Some _ =>
              a <- load_str p ;;
              b <- load_str q ;;
              ret (sign (strcmp a b))
          end
        else if text_eqb type (str "bool") then
          a <- load_bool first ;;
          b <- load_bool second ;;
          ret (sign (Z.b2z a - Z.b2z b))
        else if text_eqb type (str "int") then
          a <- load_int first ;;
          b <- load_int second ;;
          ret (sign (wrap (a - b)))
        else if text_eqb type (str "real") then
          a <- load_real first ;;
          b <- load_real second ;;
          let res := real_sub a b in
          if real_eqb res real_zero then ret 0
          else if real_ltb real_zero res then ret 1
          else ret (-1)
        else ret 2
      else
        cmp_loop (field_slots struct_type) (fun s =>
          f <- slot s ;;
          let field_offset := get_field_offset reg type (sf_name f) in
          rec (ptr_add first field_offset) (ptr_add second field_offset)
              (sf_type f))
  end.

Fixpoint struct_cmp (fuel : nat) (first second : pointer) (type : text) : M Z :=
  match fuel with
  | O => fail OutOfFuel
  | S f =>
      if is_static_array_type type then
        array_data_cmp (struct_cmp f) first second type (get_static_array_size type)
      else if is_dynamic_array_type type then
        dynamic_array_cmp (struct_cmp f) first second type
      else structure_cmp (struct_cmp f) first second type
  end.

(** *** Free *)

Definition free_aux_mem_stat_arr (rec : pointer -> text -> M unit)
  (delptr : pointer) (type : text) : M unit :=
  let base_type := get_array_basic_type type in
  let arr_size := get_static_array_size type in
  for_each (zrange arr_size) (fun i =>
    with_type base_type
      (rec (ptr_add delptr (get_element_offset_with_index reg type i)))).

Definition free_aux_mem_dyn_arr (rec : pointer -> text -> M unit)
  (delptr : pointer) (type : text) : M unit :=
  let base_type := get_array_basic_type type in
  let arr_size := get_static_array_size type in
  for_each (zrange arr_size) (fun i =>
    with_type base_type
      (rec (ptr_add delptr (get_element_offset_with_index reg type i)))) ;;
  datap <- load_ptr delptr ;;
  guc_free datap ;;
  store_ptr delptr None.

Definition free_aux_structure_mem (rec : pointer -> text -> M unit)
  (delptr : pointer) (type : text) : M unit :=
  match get_type_definition reg type with
  | None => ret tt
  | Some struct_type =>
      if cnt_fields struct_type =? 0 then
        if text_eqb type (str "string") then
          strp <- load_ptr delptr ;;
          guc_free strp ;;
          store_ptr delptr None
        else ret tt
      else
        for_each (field_slots struct_type) (fun s =>
          f <- slot s ;;
          let field_offset := get_field_offset reg type (sf_name f) in
          rec (ptr_add delptr field_offset) (sf_type f))
  end.

Fixpoint free_aux_struct_mem (fuel : nat) (delptr : pointer) (type : text)
  : M unit :=
  match fuel with
  | O => fail OutOfFuel
  | S f =>
      (if is_static_array_type type
       then free_aux_mem_stat_arr (free_aux_struct_mem f) delptr type
       else ret tt) ;;
      (if is_dynamic_array_type type
       then free_aux_mem_dyn_arr (free_aux_struct_mem f) delptr type
       else ret tt) ;;
      free_aux_structure_mem (free_aux_struct_mem f) delptr type
  end.

Definition free_struct (fuel : nat) (delptr : pointer) (type : text) : M unit :=
  free_aux_struct_mem fuel delptr type ;;
  guc_free delptr.

End Walker.

(** ** Parser *)

(** [for (; isspace( *c ); c++)] *)
Fixpoint skip_fwd (l : text) (pos : nat) : nat :=
  match l with
  | [] => pos
  | c :: rest => if isspace c then skip_fwd rest (S pos) else pos
  end.

Definition skip_space (buf : text) (c : nat) : nat := skip_fwd (skipn c buf) c.

(** [for (p = start; p < limit && isspace( *p ); p++)] *)
Fixpoint skip_fwd_until (l : text) (pos limit : nat) : nat :=
  match l with
  | [] => pos
  | c :: rest =>
      if ((pos <? limit)%nat && isspace c)%bool
      then skip_fwd_until rest (S pos) limit else pos
  end.

(** [for (p = from; p > limit && isspace( *(p - 1)); p--)]; the walk also
    ends at the start of the buffer. *)
Fixpoint skip_back (buf : text) (pos limit : nat) : nat :=
  match pos with
  | O => O
  | S q =>
      if ((limit <? pos)%nat && isspace (chr_at buf q))%bool
      then skip_back buf q limit else pos
  end.

(** [strtol(s, &end, 10)] on a digit string: the value cut to [int]
    and the number of characters read. *)
Fixpoint digits_len (l : text) : nat :=
  match l with
  | [] => O
  | c :: rest => if isdigit c then S (digits_len rest) else O
  end.

Definition err_res (r : parser_res) : parser_res := with_status r PARSER_ERR.

Definition get_index (buf : text) (start : nat) : parser_res :=
  let comma := find_same_level_symbol buf start "," in
  let bracket := find_same_level_symbol buf start "]" in
  match status bracket with
  | PARSER_OK =>
      let next_delimiter :=
        if status_eqb (status comma) PARSER_OK then
          if (res_str bracket <? res_str comma)%nat then res_str bracket
          else res_str comma
        else res_str bracket in
      let result := mk_res PARSER_OK 0 O [] next_delimiter in
      let search_res := find_same_level_symbol buf start ":" in
      let colon := res_str search_res in
      if negb (status_eqb (status search_res) PARSER_OK) then
        with_status result PARSER_NOT_FOUND
      else if (next_delimiter <? colon)%nat then with_status result PARSER_NOT_FOUND
      else
        let index_start := skip_fwd_until (skipn start buf) start colon in
        let index_end := skip_back buf colon index_start in
        if (index_end <=? index_start)%nat then err_res result
        else if negb (forallb isdigit
                        (firstn (index_end - index_start) (skipn index_start buf)))
        then err_res result
        else
          let digits := cstr_at buf index_start in
          if negb (Nat.eqb (index_start + digits_len digits) index_end)
          then err_res result
          else mk_res PARSER_OK (wrap (Z.min long_max (digits_val digits 0)))
                      O [] next_delimiter
  | _ => err_res res0
  end.

Definition get_name (buf : text) (start : nat) : parser_res :=
  let comma := find_same_level_symbol buf start "," in
  let brace := find_same_level_symbol buf start "}" in
  match status brace with
  | PARSER_OK =>
      let next_delimiter :=
        if status_eqb (status comma) PARSER_OK then
          if (res_str brace <? res_str comma)%nat then res_str brace
          else res_str comma
        else res_str brace in
      let result := mk_res PARSER_OK 0 O [] next_delimiter in
      let search_res := find_same_level_symbol buf start ":" in
      let colon := res_str search_res in
      if negb (status_eqb (status search_res) PARSER_OK) then err_res result
      else
        let name_start := skip_fwd_until (skipn start buf) start colon in
        let name_end := skip_back buf colon name_start in
        if (name_end <=? name_start)%nat then err_res result
        else mk_res PARSER_OK 0 O (substr buf name_start (name_end - name_start))
                    next_delimiter
  | _ => err_res res0
  end.

(** The [while] loop of [get_max_index]; [None] when the fuel runs out. *)
Fixpoint get_max_index_loop (fuel : nat) (buf : text) (state : Z)
  (next_del : nat) (index : Z) : option parser_res :=
  match fuel with
  | O => None
  | S f =>
      if Ascii.eqb (chr_at buf next_del) "]" then Some (mk_res PARSER_OK index O [] O)
      else
        let next_del := S next_del in
        let next_idx_st := get_index buf next_del in
        match status next_idx_st with
        | PARSER_OK =>
            if state =? -1 then Some (err_res res0)
            else get_max_index_loop f buf state (parse_end next_idx_st)
                   (if index <? res_int next_idx_st then res_int next_idx_st
                    else index)
        | PARSER_NOT_FOUND =>
            if state =? 1 then Some (err_res res0)
            else get_max_index_loop f buf state (parse_end next_idx_st)
                   (wrap (index + 1))
        | PARSER_ERR => Some (err_res res0)
        | PARSER_FAIL => get_max_index_loop f buf state next_del index
        end
  end.

Definition get_max_index (fuel : nat) (buf : text) (start : nat)
  : option parser_res :=
  let index_state := get_index buf start in
  match status index_state with
  | PARSER_OK =>
      get_max_index_loop fuel buf 1 (parse_end index_state) (res_int index_state)
  | PARSER_NOT_FOUND => get_max_index_loop fuel buf (-1) (parse_end index_state) 0
  | PARSER_ERR => Some (err_res res0)
  | PARSER_FAIL => get_max_index_loop fuel buf 0 O 0
  end.

Definition is_empty_array (buf : text) (start end_ : nat) : bool :=
  Nat.eqb (skip_space buf (S start)) end_.

(** [check_braces]: the position of the closing symbol, or null. *)
Definition check_braces (buf : text) (start : nat) (open close : ascii)
  : option nat :=
  if negb (Ascii.eqb (chr_at buf start) open) then None
  else
    let search_res := find_same_level_symbol buf (S start) close in
    match status search_res with
    | PARSER_OK => Some (res_str search_res)
    | _ => None
    end.

Definition check_array_syntax (fuel : nat) (buf : text) (start : nat)
  : option parser_res :=
  match check_braces buf start "[" "]" with
  | None => Some (err_res res0)
  | Some close =>
      if is_empty_array buf start close then Some (mk_res PARSER_OK 0 O [] close)
      else
        match get_max_index fuel buf (S start) with
        | None => None
        | Some max_idx_state =>
            match status max_idx_state with
            | PARSER_OK => Some (mk_res PARSER_OK (res_int max_idx_state) O [] close)
            | PARSER_ERR => Some (mk_res PARSER_ERR 0 O [] close)
            | _ => Some (mk_res PARSER_OK 0 O [] close)
            end
        end
  end.

Definition lift_fuel {A} (o : option A) : M A :=
  match o with
  | Some a => ret a
  | None => fail OutOfFuel
  end.

(** The loop of [find_field]. *)
Fixpoint find_field_loop (fuel : nat) (buf : text) (st : nat) (name : text)
  : option parser_res :=
  match fuel with
  | O => None
  | S f =>
      if Ascii.eqb (chr_at buf st) "}" then Some (with_status res0 PARSER_NOT_FOUND)
      else
        let name_state := get_name buf (S st) in
        match status name_state with
        | PARSER_ERR => Some (err_res res0)
        | _ =>
            if text_eqb (res_name name_state) name
            then Some (mk_res PARSER_OK 0 (S st) [] O)
            else find_field_loop f buf (parse_end name_state) name
        end
  end.

Definition find_field (fuel : nat) (buf : text) (start : nat) (name : text)
  : option parser_res := find_field_loop fuel buf start name.

(** The loop of [parse_extended_dynamic_array] that counts the fields. *)
Fixpoint count_fields_loop (fuel : nat) (buf : text) (del : nat) (cnt : Z)
  : option Z :=
  match fuel with
  | O => None
  | S f =>
      if Ascii.eqb (chr_at buf del) "}" then Some cnt
      else count_fields_loop f buf
             (res_str (find_same_level_symbol buf (S del) ",")) (wrap (cnt + 1))
  end.

Section Parser.

Variable E : env.
Variable flags : Z.

Let reg := guc_types_hashtab E.

(** The type of [parse_composite_impl]: buffer, position of the value,
    type, target; the buffer comes back with the result. *)
Definition impl : Type := text -> nat -> text -> pointer -> M (parser_res * text).

Definition parse_array_element (rec : impl) (buf : text) (strval : nat)
  (array_type : text) (res_arr : pointer) (prev_index : Z)
  : M (parser_res * text) :=
  match get_array_basic_type array_type with
  | None => ret (err_res res0, buf)
  | Some basic_type =>
      let index_state := get_index buf strval in
      match status index_state with
      | PARSER_ERR => ret (err_res res0, buf)
      | PARSER_FAIL => fail BadAccess
      | st =>
          let next_colon_found := status_eqb st PARSER_OK in
          let index :=
            if next_colon_found then res_int index_state
            else wrap (prev_index + 1) in
          let next_del := parse_end index_state in
          let result := mk_res PARSER_OK 0 O [] next_del in
          let next_colon := res_str (find_same_level_symbol buf strval ":") in
          let delimiter_ph := chr_at buf next_del in
          let del_ptr := skip_back buf next_del O in
          let buf := set_chr buf del_ptr NUL in
          let c := if next_colon_found then S next_colon else strval in
          let c := skip_space buf c in
          let result_ptr :=
            ptr_add res_arr (get_element_offset_with_index reg array_type index) in
          '(element_res, buf) <- rec buf c basic_type result_ptr ;;
          let buf := set_chr buf next_del delimiter_ph in
          if status_eqb (status element_res) PARSER_ERR
          then ret (err_res result, buf)
          else ret (result, buf)
      end
  end.

Definition parse_struct_element (rec : impl) (buf : text) (strval : nat)
  (struct_type : text) (res_struct : pointer) : M (parser_res * text) :=
  let name_state := get_name buf strval in
  match status name_state with
  | PARSER_OK =>
      let next_del := parse_end name_state in
      let result := mk_res PARSER_OK 0 O [] next_del in
      let offset := get_field_offset reg struct_type (res_name name_state) in
      match get_field_type_name reg struct_type (res_name name_state) with
      | None => ret (err_res result, buf)
      | Some field_type =>
          if offset <? 0 then ret (err_res result, buf)
          else
            let next_colon := res_str (find_same_level_symbol buf strval ":") in
            let delimiter_ph := chr_at buf next_del in
            let del_ptr := skip_back buf next_del O in
            let buf := set_chr buf del_ptr NUL in
            let c := skip_space buf (S next_colon) in
            let result_ptr := ptr_add res_struct offset in
            '(element_res, buf) <- rec buf c field_type result_ptr ;;
            let buf := set_chr buf next_del delimiter_ph in
            if status_eqb (status element_res) PARSER_ERR
            then ret (err_res result, buf)
            else ret (result, buf)
      end
  | PARSER_FAIL => fail BadAccess
  | _ => ret (err_res res0, buf)
  end.

Fixpoint parse_prepared_array_loop (fuel : nat) (rec : impl) (buf : text)
  (array_type : text) (res_arr : pointer) (c : nat) (i : Z)
  : M (parser_res * text) :=
  match fuel with
  | O => fail OutOfFuel
  | S f =>
      if Ascii.eqb (chr_at buf (pred c)) "]"
      then ret (mk_res PARSER_OK 0 O [] (pred c), buf)
      else
        '(element_res, buf) <-
           parse_array_element rec buf c array_type res_arr (wrap (i - 1)) ;;
        match status element_res with
        | PARSER_OK =>
            parse_prepared_array_loop f rec buf array_type res_arr
              (S (parse_end element_res)) (wrap (i + 1))
        | PARSER_ERR => ret (err_res res0, buf)
        | _ =>
            parse_prepared_array_loop f rec buf array_type res_arr c (wrap (i + 1))
        end
  end.

Definition parse_prepared_array (fuel : nat) (rec : impl) (buf : text)
  (start : nat) (array_type : text) (res_arr : pointer) : M (parser_res * text) :=
  parse_prepared_array_loop fuel rec buf array_type res_arr (S start) 0.

Definition parse_static_array (fuel : nat) (rec : impl) (buf : text)
  (strval : nat) (array_type : text) (res_arr : pointer) : M (parser_res * text) :=
  let arr_size := get_static_array_size array_type in
  if arr_size <? 0 then ret (err_res res0, buf)
  else
    check_res <- lift_fuel (check_array_syntax fuel buf strval) ;;
    match status check_res with
    | PARSER_ERR => ret (err_res res0, buf)
    | PARSER_OK =>
        if arr_size <? res_int check_res
        then ret (mk_res PARSER_ERR 0 O [] (parse_end check_res), buf)
        else parse_prepared_array fuel rec buf strval array_type res_arr
    | _ => parse_prepared_array fuel rec buf strval array_type res_arr
    end.

(** The memory of a variable array is replaced by a block of the new
    length: the old elements are copied, the rest is cleared. *)
Definition parse_dynamic_array (fuel : nat) (rec : impl) (buf : text)
  (strval : nat) (array_type : text) (res_arr : pointer) : M (parser_res * text) :=
  last_arr_len <- dynamic_array_size res_arr ;;
  let last_arr_mem_size :=
    get_dynamic_array_mem_size_with_length reg array_type last_arr_len in
  if last_arr_mem_size <? 0 then ret (err_res res0, buf)
  else
    check_res <- lift_fuel (check_array_syntax fuel buf strval) ;;
    match status check_res with
    | PARSER_ERR => ret (err_res res0, buf)
    | st =>
        let max_idx := if status_eqb st PARSER_OK then res_int check_res else 0 in
        let arr_len :=
          if last_arr_len <? wrap (max_idx + 1) then wrap (max_idx + 1)
          else last_arr_len in
        let new_data_mem_size :=
          get_dynamic_array_mem_size_with_length reg array_type arr_len in
        new_data <- guc_malloc new_data_mem_size ;;
        old_data <- load_ptr res_arr ;;
        (if negb (last_arr_mem_size =? 0)
         then memcpy new_data old_data last_arr_mem_size else ret tt) ;;
        memset0 (ptr_add new_data last_arr_mem_size)
                (new_data_mem_size - last_arr_mem_size) ;;
        guc_free old_data ;;
        store_ptr res_arr new_data ;;
        store_int (ptr_add res_arr sizeof_ptr) arr_len ;;
        parse_prepared_array fuel rec buf strval array_type new_data
    end.

(** The copy made by the extended form: nothing is cleared when the old
    array had no memory. *)
Definition resize_copy (new_data old_data : pointer)
  (last_arr_mem_size new_data_mem_size : Z) : M unit :=
  if (negb (last_arr_mem_size =? 0) && (last_arr_mem_size <? new_data_mem_size))%bool
  then
    memcpy new_data old_data last_arr_mem_size ;;
    memset0 (ptr_add new_data last_arr_mem_size)
            (new_data_mem_size - last_arr_mem_size)
  else if negb (last_arr_mem_size =? 0)
  then memcpy new_data old_data new_data_mem_size
  else ret tt.

Definition replace_snapshot (res_arr new_data : pointer) (arr_len : Z) : M unit :=
  old_data <- load_ptr res_arr ;;
  guc_free old_data ;;
  store_ptr res_arr new_data ;;
  store_int (ptr_add res_arr sizeof_ptr) arr_len.

Definition parse_extended_dynamic_array (fuel : nat) (rec : impl) (buf : text)
  (strval : nat) (array_type : text) (res_arr : pointer) : M (parser_res * text) :=
  last_arr_len <- dynamic_array_size res_arr ;;
  let last_arr_mem_size :=
    get_dynamic_array_mem_size_with_length reg array_type last_arr_len in
  if last_arr_mem_size <? 0 then ret (err_res res0, buf)
  else
    match check_braces buf strval "{" "}" with
    | None => ret (err_res res0, buf)
    | Some close =>
        let result := mk_res PARSER_OK 0 O [] close in
        if is_empty_array buf strval close then ret (err_res result, buf)
        else
          cnt_fields <- lift_fuel (count_fields_loop fuel buf strval 0) ;;
          if 2 <? cnt_fields then ret (err_res result, buf)
          else
            search_res <- lift_fuel (find_field fuel buf strval (str "size")) ;;
            (* the field [size], parsed into a [struct DynArrTmp] *)
            '(size_st, buf) <-
               match status search_res with
               | PARSER_OK =>
                   dyn_array <- guc_malloc (sizeof_ptr * 2) ;;
                   store_ptr dyn_array None ;;
                   store_int (ptr_add dyn_array sizeof_ptr) (-1) ;;
                   '(element_res, buf) <-
                      parse_struct_element rec buf (res_str search_res)
                        array_type dyn_array ;;
                   size <- dynamic_array_size dyn_array ;;
                   guc_free dyn_array ;;
                   match status element_res with
                   | PARSER_OK => ret (Some size, buf)
                   | PARSER_ERR => ret (None, buf)
                   | _ => ret (Some (-1), buf)
                   end
               | PARSER_NOT_FOUND =>
                   if 1 <? cnt_fields then ret (None, buf) else ret (Some (-1), buf)
               | PARSER_ERR => ret (None, buf)
               | PARSER_FAIL => ret (Some (-1), buf)
               end ;;
            match size_st with
            | None => ret (err_res result, buf)
            | Some arr_len =>
                search_res <- lift_fuel (find_field fuel buf strval (str "data")) ;;
                match status search_res with
                | PARSER_ERR => ret (err_res result, buf)
                | PARSER_NOT_FOUND =>
                    if 1 <? cnt_fields then ret (err_res result, buf)
                    else if arr_len <? 0 then ret (err_res result, buf)
                    else
                      let new_data_mem_size :=
                        get_dynamic_array_mem_size_with_length reg array_type arr_len in
                      new_data <- guc_malloc new_data_mem_size ;;
                      old_data <- load_ptr res_arr ;;
                      resize_copy new_data old_data last_arr_mem_size
                                  new_data_mem_size ;;
                      replace_snapshot res_arr new_data arr_len ;;
                      ret (result, buf)
                | _ =>
                    let data_st := res_str search_res in
                    let colon := res_str (find_same_level_symbol buf data_st ":") in
                    let c := skip_space buf (S colon) in
                    check_res <- lift_fuel (check_array_syntax fuel buf c) ;;
                    match status check_res with
                    | PARSER_ERR => ret (err_res result, buf)
                    | st =>
                        let max_idx :=
                          if status_eqb st PARSER_OK then res_int check_res else 0 in
                        if (negb (arr_len =? -1) && (arr_len <=? max_idx))%bool
                        then ret (err_res result, buf)
                        else
                          let arr_len :=
                            if arr_len =? -1 then
                              if last_arr_len <? wrap (max_idx + 1)
                              then wrap (max_idx + 1) else last_arr_len
                            else arr_len in
                          let new_data_mem_size :=
                            get_dynamic_array_mem_size_with_length reg array_type
                              arr_len in
                          new_data <- guc_malloc new_data_mem_size ;;
                          old_data <- load_ptr res_arr ;;
                          resize_copy new_data old_data last_arr_mem_size
                                      new_data_mem_size ;;
                          replace_snapshot res_arr new_data arr_len ;;
                          parse_prepared_array fuel rec buf c array_type new_data
                    end
                end
            end
    end.

(** An atomic value: the text from [strval] to the terminator.  The host
    parsers write their target in every case: it holds zero when they
    refuse the text. *)
Definition parse_atomic_type (buf : text) (strval : nat) (struct_type : text)
  (result : pointer) : M (parser_res * text) :=
  let s := cstr_at buf strval in
  let parser_result := mk_res PARSER_OK 0 O [] (strval + List.length s - 1) in
  let prepared_strval :=
    if Ascii.eqb (chr_at buf strval) "'" then DeescapeQuotedString E s else s in
  if text_eqb struct_type (str "bool") then
    match parse_bool E prepared_strval with
    | Some b => store_bool result b ;; ret (parser_result, buf)
    | None => store_bool result false ;; ret (err_res parser_result, buf)
    end
  else if text_eqb struct_type (str "int") then
    match parse_int E prepared_strval flags with
    | Some z => store_int result z ;; ret (parser_result, buf)
    | None => store_int result 0 ;; ret (err_res parser_result, buf)
    end
  else if text_eqb struct_type (str "real") then
    match parse_real E prepared_strval flags with
    | Some r => store_real result r ;; ret (parser_result, buf)
    | None => store_real result real_zero ;; ret (err_res parser_result, buf)
    end
  else if text_eqb struct_type (str "string") then
    if text_eqb prepared_strval (str "nil")
    then store_ptr result None ;; ret (parser_result, buf)
    else p <- guc_strdup prepared_strval ;;
         store_ptr result p ;; ret (parser_result, buf)
  else ret (err_res parser_result, buf).

Fixpoint parse_structure_loop (fuel : nat) (rec : impl) (buf : text)
  (struct_type : text) (res_struct : pointer) (c : nat) : M (parser_res * text) :=
  match fuel with
  | O => fail OutOfFuel
  | S f =>
      if Ascii.eqb (chr_at buf (pred c)) "}"
      then ret (mk_res PARSER_OK 0 O [] (pred c), buf)
      else
        '(element_res, buf) <- parse_struct_element rec buf c struct_type res_struct ;;
        match status element_res with
        | PARSER_OK =>
            parse_structure_loop f rec buf struct_type res_struct
              (S (parse_end element_res))
        | PARSER_ERR => ret (err_res res0, buf)
        | _ => parse_structure_loop f rec buf struct_type res_struct c
        end
  end.

Definition parse_structure (fuel : nat) (rec : impl) (buf : text) (strval : nat)
  (struct_type : text) (res_struct : pointer) : M (parser_res * text) :=
  if is_atomic_type struct_type
  then parse_atomic_type buf strval struct_type res_struct
  else
    match check_braces buf strval "{" "}" with
    | None => ret (err_res res0, buf)
    | Some _ => parse_structure_loop fuel rec buf struct_type res_struct (S strval)
    end.

Fixpoint parse_composite_impl (fuel : nat) (value : text) (pos : nat)
  (type : text) (result : pointer) : M (parser_res * text) :=
  match fuel with
  | O => fail OutOfFuel
  | S f =>
      if is_static_array_type type then
        parse_static_array f (parse_composite_impl f) value pos type result
      else if is_dynamic_array_type type then
        if Ascii.eqb (chr_at value pos) "{" then
          parse_extended_dynamic_array f (parse_composite_impl f) value pos type result
        else parse_dynamic_array f (parse_composite_impl f) value pos type result
      else parse_structure f (parse_composite_impl f) value pos type result
  end.

(** [value[strlen(value) - 1] == ';'] *)
Definition is_assignment_list (value : text) : bool :=
  Ascii.eqb (last value NUL) ";".

(** What the call leaves in [*result]. *)
Inductive out_result :=
| Unwritten
| Written (p : pointer).

(** The part of [parse_composite] before the literal is read: the target
    is allocated and either cloned from the previous value or cleared. *)
Definition prepare_target (fuel : nat) (type : text) (prev_val : pointer)
  : M pointer :=
  let size := get_type_size reg type in
  val <- guc_malloc size ;;
  (match prev_val with
   | Some _ => struct_dup_impl E fuel val prev_val type
   | None => memset0 val size
   end) ;;
  ret val.

Definition parse_plain (fuel : nat) (value type : text) (prev_val : pointer)
  : M (bool * out_result) :=
  val <- prepare_target fuel type prev_val ;;
  '(parser_result, _) <- parse_composite_impl fuel value O type val ;;
  match status parser_result with
  | PARSER_OK => ret (true, Written val)
  | PARSER_ERR => guc_free val ;; ret (false, Written None)
  | _ => ret (true, Unwritten)
  end.

(** The loop of [parse_placeholder_patch_list]; [rec] is
    [parse_composite]. *)
Fixpoint patch_list_loop (fuel : nat)
  (rec : text -> text -> pointer -> M (bool * out_result))
  (strval : text) (cur_patch : nat) (type : text) (last_value : pointer)
  : M (bool * out_result) :=
  match fuel with
  | O => fail OutOfFuel
  | S f =>
      if Ascii.eqb (chr_at strval cur_patch) NUL then ret (true, Written last_value)
      else
        let next_del := res_str (find_same_level_symbol strval cur_patch ";") in
        let strval := set_chr strval next_del NUL in
        '(ok, next_value) <- rec (cstr_at strval cur_patch) type last_value ;;
        if negb ok then ret (false, Written last_value)
        else
          match next_value with
          | Unwritten => fail BadAccess
          | Written next_value =>
              guc_free last_value ;;
              patch_list_loop f rec strval (S next_del) type next_value
          end
  end.

Definition parse_placeholder_patch_list (fuel : nat)
  (rec : text -> text -> pointer -> M (bool * out_result))
  (value type : text) (prev_val : pointer) : M (bool * out_result) :=
  last_value <- struct_dup E fuel prev_val type ;;
  patch_list_loop fuel rec value O type last_value.

Fixpoint parse_composite (fuel : nat) (value type : text) (prev_val : pointer)
  : M (bool * out_result) :=
  match fuel with
  | O => fail OutOfFuel
  | S f =>
      match value with
      | [] => fail BadAccess
      | _ =>
          if is_assignment_list value
          then parse_placeholder_patch_list f (parse_composite f) value type prev_val
          else parse_plain f value type prev_val
      end
  end.

End Parser.

(** ** A host for the examples *)

From Stdlib Require Import DecimalString DecimalZ.

(** [sprintf("%d")] *)
Definition int_to_str (z : Z) : text := str (NilZero.string_of_int (Z.to_int z)).

(** Modelled from the spec: the atomic parsers of the host (not part of
    the sources) for the texts the examples use.  [std_parse_int] reads a
    decimal number with an optional sign and refuses what does not fit
    [int]; [std_parse_bool] knows the usual spellings. *)
Definition std_parse_int (s : text) (flags : Z) : option Z :=
  match s with
  | [] => None
  | c :: rest =>
      let digits := if (Ascii.eqb c "-" || Ascii.eqb c "+")%bool then rest else s in
      match digits with
      | [] => None
      | _ =>
          if forallb isdigit digits then
            let v := digits_val digits 0 in
            let v := if Ascii.eqb c "-" then - v else v in
            if ((int_min <=? v) && (v <=? int_max))%bool then Some v else None
          else None
      end
  end.

Definition std_parse_bool (s : text) : option bool :=
  if (text_eqb s (str "true") || text_eqb s (str "on") || text_eqb s (str "yes")
      || text_eqb s (str "1"))%bool then Some true
  else if (text_eqb s (str "false") || text_eqb s (str "off")
           || text_eqb s (str "no") || text_eqb s (str "0"))%bool then Some false
  else None.

(** Modelled from the spec: quote escaping.  [std_escape] doubles single
    quotes and backslashes; [std_deescape] drops the enclosing quotes,
    turns a doubled quote into one and a backslash pair into the escaped
    character. *)
Fixpoint std_escape (s : text) : text :=
  match s with
  | [] => []
  | c :: rest =>
      if (Ascii.eqb c "'" || Ascii.eqb c "\")%bool
      then c :: c :: std_escape rest else c :: std_escape rest
  end.

Fixpoint deescape_body (fuel : nat) (s : text) : text :=
  match fuel, s with
  | S f, c :: d :: rest =>
      if Ascii.eqb c "\" then d :: deescape_body f rest
      else if (Ascii.eqb c "'" && Ascii.eqb d "'")%bool then d :: deescape_body f rest
      else c :: deescape_body f (d :: rest)
  | S f, [c] => if Ascii.eqb c "\" then [] else [c]
  | _, _ => []
  end.

Definition std_deescape (s : text) : text :=
  deescape_body (List.length s) (removelast (tl s)).

Definition std_env (reg : registry) (thd : Z) : env :=
  mk_env reg thd std_parse_bool std_parse_int (fun _ _ => None)
         std_deescape std_escape (fun _ => str "0.000000").

(** ** Serializer *)

(** The loop that fills [parts]: it stops at the first null part. *)
Fixpoint collect_parts {A} (l : list A) (body : A -> M (option text))
  : M (option (list text)) :=
  match l with
  | [] => ret (Some [])
  | x :: rest =>
      p <- body x ;;
      match p with
      | None => ret None
      | Some s =>
          ps <- collect_parts rest body ;;
          match ps with
          | None => ret None
          | Some ss => ret (Some (s :: ss))
          end
      end
  end.

(** The parts separated by a comma and a space. *)
Fixpoint glue (parts : list text) : text :=
  match parts with
  | [] => []
  | [p] => p
  | p :: rest => p ++ str ", " ++ glue rest
  end.

Section Serializer.

Variable E : env.

Let reg := guc_types_hashtab E.

Definition to_str : Type := pointer -> text -> bool -> M (option text).

Definition static_array_to_str (rec : to_str) (structp : pointer) (type : text)
  (serialize : bool) : M (option text) :=
  let array_size := get_static_array_size type in
  match get_array_basic_type type with
  | None => ret None
  | Some element_type =>
      if array_size <? 0 then ret None
      else
        parts <- collect_parts (zrange array_size) (fun i =>
          let offset := get_element_offset_with_index reg type i in
          if offset <? 0 then ret None
          else rec (ptr_add structp offset) element_type serialize) ;;
        match parts with
        | None => ret None
        | Some [] => fail BadAccess          (* parts[array_size - 1] *)
        | Some ps => ret (Some (str "[" ++ glue ps ++ str "]"))
        end
  end.

Definition dynamic_array_to_str (rec : to_str) (structp : pointer) (type : text)
  (serialize : bool) : M (option text) :=
  array_size <- dynamic_array_size structp ;;
  match get_array_basic_type type with
  | None => ret None
  | Some element_type =>
      if array_size <? 0 then fail OutOfMemory
      else
        let is_expand := expand_array_view_thd E <=? array_size in
        datap <- load_ptr structp ;;
        parts <- collect_parts (zrange array_size) (fun i =>
          let offset := get_element_offset_with_index reg type i in
          if offset <? 0 then ret None
          else rec (ptr_add datap offset) element_type serialize) ;;
        match parts with
        | None => ret None
        | Some [] => fail BadAccess          (* parts[array_size - 1] *)
        | Some ps =>
            if is_expand
            then ret (Some (str "{size: " ++ int_to_str array_size ++ str ", data: ["
                            ++ glue ps ++ str "]}"))
            else ret (Some (str "[" ++ glue ps ++ str "]"))
        end
  end.

Definition quote (buf : text) : text := str "'" ++ buf ++ str "'".

Definition atomic_to_str (structp : pointer) (type : text) (serialize : bool)
  : M (option text) :=
  buf <-
    (if text_eqb type (str "bool") then
       b <- load_bool structp ;;
       ret (Some (if b then str "true" else str "false"))
     else if text_eqb type (str "int") then
       z <- load_int structp ;; ret (Some (int_to_str z))
     else if text_eqb type (str "real") then
       r <- load_real structp ;; ret (Some (real_to_str E r))
     else if text_eqb type (str "string") then
       p <- load_ptr structp ;;
       match p with
       | None => ret (Some (str "nil"))
       | Some _ =>
           s <- load_str p ;;
           ret (Some (if serialize then escape_single_quotes_ascii E s else s))
       end
     else ret None) ;;
  match buf with
  | None => ret None
  | Some buf =>
      if (serialize ||
          (text_eqb type (str "string") && negb (text_eqb buf (str "nil"))))%bool
      then ret (Some (quote buf))
      else ret (Some buf)
  end.

Definition structure_to_str (rec : to_str) (structp : pointer) (type : text)
  (serialize : bool) : M (option text) :=
  if is_atomic_type type then atomic_to_str structp type serialize
  else
    match get_type_definition reg type with
    | None => ret None
    | Some struct_type =>
        parts <- collect_parts (field_slots struct_type) (fun s =>
          f <- slot s ;;
          let offset := get_field_offset reg (td_type struct_type) (sf_name f) in
          if offset <? 0 then ret None
          else
            part <- rec (ptr_add structp offset) (sf_type f) serialize ;;
            match part with
            | None => ret None
            | Some p => ret (Some (sf_name f ++ str ": " ++ p))
            end) ;;
        match parts with
        | None => ret None
        | Some [] => fail BadAccess          (* parts[cnt_fields - 1] *)
        | Some ps => ret (Some (str "{" ++ glue ps ++ str "}"))
        end
  end.

Fixpoint struct_to_str (fuel : nat) (structp : pointer) (type : text)
  (serialize : bool) : M (option text) :=
  match fuel with
  | O => fail OutOfFuel
  | S f =>
      if is_static_array_type type then
        static_array_to_str (struct_to_str f) structp type serialize
      else if is_dynamic_array_type type then
        dynamic_array_to_str (struct_to_str f) structp type serialize
      else structure_to_str (struct_to_str f) structp type serialize
  end.

End Serializer.

(** * Properties *)

(** ** Values used by the examples *)

Definition demo_env : env := std_env demo_registry 3.

Definition bag_registry : registry :=
  match register_type atomic_types (str "bag") (str "string[] items") with
  | Some r => r
  | None => []
  end.

Definition bag_env : env := std_env bag_registry 3.

Definition scenario1 : text :=
  str "{name: 'c1', size: 1, nodes: [{name: 'n0', ip: '10.0.0.1', port: 5432}]}".

(** Conjunctions of closed equations, each settled by evaluation. *)
Ltac by_evaluation :=
  repeat (lazymatch goal with |- _ /\ _ => split end; [vm_compute; reflexivity|]);
  vm_compute; reflexivity.

(** ** The bound test of fixed arrays *)

(** When the largest index equals the declared length the test
    [check_res.res_int > arr_size] lets the literal through. *)
Lemma parse_static_array_at_bound :
  forall fuel rec buf strval array_type res_arr check_res,
    check_array_syntax fuel buf strval = Some check_res ->
    status check_res = PARSER_OK ->
    res_int check_res = get_static_array_size array_type ->
    0 <= get_static_array_size array_type ->
    forall E h,
      parse_static_array E fuel rec buf strval array_type res_arr h =
      parse_prepared_array E fuel rec buf strval array_type res_arr h.
Proof.
  intros fuel rec buf strval array_type res_arr check_res Hc Hs Hi Hn E h.
  unfold parse_static_array.
  destruct (get_static_array_size array_type <? 0) eqn:Hneg.
  - apply Z.ltb_lt in Hneg. lia.
  - rewrite Hc. unfold lift_fuel, bind, ret. rewrite Hs, Hi.
    rewrite Z.ltb_irrefl. reflexivity.
Qed.

(** C2: a literal for a fixed array [T[N]] whose largest index is [N] is
    not refused.  With [v1] the value of the first scenario, parsing
    [{nodes: [10: {port: 1}]}] against [cluster] (ten nodes) finds largest
    index 10, passes the bound test and stores the element outside the
    256-byte target, which the heap reports as a fault; index 11 is
    refused with an error and a null result. *)
Theorem C2_index_equal_to_length_is_accepted :
  exists v1 h1 h2,
    parse_composite demo_env 0 100 scenario1 (str "cluster") None []
      = Ok (true, Written v1) h1 /\
    get_static_array_size (str "node[10]") = 10 /\
    option_map res_int (check_array_syntax 100 (str "[10: {port: 1}]") 0) = Some 10 /\
    get_type_size demo_registry (str "cluster") = 256 /\
    get_field_offset demo_registry (str "cluster") (str "nodes")
      + get_element_offset_with_index demo_registry (str "node[10]") 10 = 256 /\
    parse_composite demo_env 0 100 (str "{nodes: [10: {port: 1}]}")
      (str "cluster") v1 h1 = Fail BadAccess /\
    parse_composite demo_env 0 100 (str "{nodes: [11: {port: 1}]}")
      (str "cluster") v1 h1 = Ok (false, Written None) h2.
Proof.
  do 3 eexists.
  by_evaluation.
Qed.

(** ** Releasing a value *)

(** For a variable array the loop of [free_aux_mem_dyn_arr] runs over
    [get_static_array_size], which is never positive for such a type: no
    element is visited. *)
Lemma free_aux_mem_dyn_arr_skips_elements :
  forall E rec delptr type,
    is_dynamic_array_type type = true ->
    free_aux_mem_dyn_arr E rec delptr type =
    (ret tt ;; datap <- load_ptr delptr ;; guc_free datap ;; store_ptr delptr None).
Proof.
  intros E rec delptr type Hd.
  unfold free_aux_mem_dyn_arr, is_dynamic_array_type, get_static_array_size in *.
  destruct (strchr type "[") as [i|]; [|discriminate].
  destruct (strchr type "]"); [|discriminate].
  apply Z.leb_le in Hd.
  unfold zrange. replace (Z.to_nat (atoi (skipn (S i) type))) with O by lia.
  reflexivity.
Qed.

(** C3: [free_struct] does not release the strings held by the elements
    of a variable array.  For the record [bag] with the field
    [string[] items] and the value [{items: ['a', 'b']}], the root and the
    array buffer are released and the two strings stay allocated. *)
Theorem C3_strings_in_variable_array_not_released :
  exists v h,
    parse_composite bag_env 0 100 (str "{items: ['a', 'b']}") (str "bag") None []
      = Ok (true, Written v) h /\
    h = [ BData (frags (SPtr 1 0) 8 ++ frags (SInt 2) 4 ++ repeat Zero 4);
          BData (frags (SPtr 2 0) 8 ++ frags (SPtr 3 0) 8);
          BStr (str "a"); BStr (str "b") ] /\
    free_struct bag_env 100 v (str "bag") h
      = Ok tt [BFreed; BFreed; BStr (str "a"); BStr (str "b")].
Proof.
  do 2 eexists.
  by_evaluation.
Qed.

(** ** The result of a comparison *)

(** C4: [struct_cmp] on two variable arrays of different lengths returns
    the difference of the lengths.  For [int[]] with [1, 2, 3] against
    [1] the result is 2, which is also the value [structure_cmp] uses as
    its error code. *)
Theorem C4_compare_returns_length_difference :
  exists a h1 b h2,
    parse_composite demo_env 0 100 (str "[1, 2, 3]") (str "int[]") None []
      = Ok (true, Written a) h1 /\
    parse_composite demo_env 0 100 (str "[1]") (str "int[]") None h1
      = Ok (true, Written b) h2 /\
    struct_cmp demo_env 100 a b (str "int[]") h2 = Ok 2 h2 /\
    struct_cmp demo_env 100 b a (str "int[]") h2 = Ok (-2) h2.
Proof.
  do 4 eexists.
  split; [vm_compute; reflexivity|].
  by_evaluation.
Qed.

(** ** The extended form of variable arrays *)

(** The literal of the spec is refused. *)
Example extended_form_size_2_three_elements :
  parse_composite demo_env 0 100 (str "{size: 2, data: [0, 1, 2]}") (str "int[]")
    None [] = Ok (false, Written None) [BFreed; BFreed].
Proof. vm_compute. reflexivity. Qed.

(** C6: an extended-form literal with both fields whose largest index is
    not below [size] is accepted when [size] is -1, the value the parser
    uses for "no size given": [{size: -1, data: [7]}] yields an array of
    length 1. *)
Theorem C6_size_minus_one_is_accepted :
  exists h,
    parse_composite demo_env 0 100 (str "{size: -1, data: [7]}") (str "int[]")
      None [] = Ok (true, Written (Some (O, 0))) h /\
    dynamic_array_size (Some (O, 0)) h = Ok 1 h /\
    (data <- load_ptr (Some (O, 0)) ;; load_int data) h = Ok 7 h.
Proof.
  eexists. by_evaluation.
Qed.

(** C7: [{size: 2}] on an empty variable array leaves the two new
    elements uninitialised: [resize_copy] clears nothing when the old
    array had no memory.  Growing an array that was not empty does clear
    the new elements. *)
Theorem C7_grown_elements_of_empty_array_uninitialised :
  exists h,
    parse_composite demo_env 0 100 (str "{size: 2}") (str "int[]") None []
      = Ok (true, Written (Some (O, 0))) h /\
    dynamic_array_size (Some (O, 0)) h = Ok 2 h /\
    load_ptr (Some (O, 0)) h = Ok (Some (2%nat, 0)) h /\
    nth_error h 2 = Some (BData (repeat Undef 8)) /\
    (data <- load_ptr (Some (O, 0)) ;; load_int data) h = Fail BadAccess.
Proof.
  eexists. by_evaluation.
Qed.

Example grow_non_empty_array_clears :
  exists v h h',
    parse_composite demo_env 0 100 (str "[1, 2]") (str "int[]") None []
      = Ok (true, Written v) h /\
    parse_composite demo_env 0 100 (str "{size: 5}") (str "int[]") v h
      = Ok (true, Written (Some (2%nat, 0))) h' /\
    nth_error h' 5
      = Some (BData (frags (SInt 1) 4 ++ frags (SInt 2) 4 ++ repeat Zero 12)).
Proof.
  do 3 eexists.
  by_evaluation.
Qed.

(** ** The cleared target *)

(** Without a previous value the target is a fresh block of zero bytes
    when the literal is read. *)
Lemma prepare_target_zero_filled :
  forall E fuel type h,
    0 <= get_type_size (guc_types_hashtab E) type ->
    prepare_target E fuel type None h =
    Ok (Some (List.length h, 0))
       (h ++ [BData (repeat Zero (Z.to_nat (get_type_size (guc_types_hashtab E) type)))]).
Proof.
  intros E fuel type h Hs.
  unfold prepare_target, bind, guc_malloc, memset0, ret.
  destruct (get_type_size (guc_types_hashtab E) type <? 0) eqn:Hn;
    [apply Z.ltb_lt in Hn; lia|].
  destruct (get_type_size (guc_types_hashtab E) type =? 0) eqn:Hz.
  - apply Z.eqb_eq in Hz. rewrite Hz. reflexivity.
  - unfold store_bytes. rewrite nth_error_app2 by lia.
    rewrite Nat.sub_diag. simpl.
    unfold in_bounds. simpl. rewrite !repeat_length.
    rewrite Z.leb_refl. simpl.
    f_equal.
    assert (Hu : forall (l : heap) x y, upd_nth (l ++ [x]) (List.length l) y = l ++ [y]).
    { induction l; simpl; intros; [reflexivity | f_equal; apply IHl]. }
    rewrite Hu. do 2 f_equal. f_equal.
    assert (Hb : forall (l src : list mbyte), blit l 0 src = src ++ skipn (List.length src) l)
      by (intros [|x l] src; reflexivity).
    rewrite Hb, repeat_length, skipn_all2 by (rewrite repeat_length; lia).
    apply app_nil_r.
Qed.

(** C9: with no previous value, elements of a variable array that the
    literal does not assign are not all zero: for [{size: 3, data: [0: 1]}]
    element 0 is 1 and the bytes of elements 1 and 2 are uninitialised.
    The target itself is cleared ([prepare_target_zero_filled]); the
    buffer made by the extended form is not. *)
Theorem C9_unassigned_elements_not_zeroed :
  exists h,
    parse_composite demo_env 0 100 (str "{size: 3, data: [0: 1]}") (str "int[]")
      None [] = Ok (true, Written (Some (O, 0))) h /\
    load_ptr (Some (O, 0)) h = Ok (Some (2%nat, 0)) h /\
    nth_error h 2 = Some (BData (frags (SInt 1) 4 ++ repeat Undef 8)) /\
    load_int (Some (2%nat, 4)) h = Fail BadAccess /\
    load_int (Some (2%nat, 8)) h = Fail BadAccess.
Proof.
  eexists. by_evaluation.
Qed.

(** ** The result slot on failure *)

(** C10: when the text is not a patch list and [parse_composite] returns
    false, it has stored null into [*result]. *)
Theorem C10_failure_stores_null :
  forall E flags fuel value type prev_val h check result h',
    is_assignment_list value = false ->
    parse_composite E flags fuel value type prev_val h = Ok (check, result) h' ->
    check = false ->
    result = Written None.
Proof.
  intros E flags fuel value type prev_val h check result h' Hlist Hrun Hcheck.
  destruct fuel as [|f]; [discriminate|].
  simpl in Hrun. destruct value as [|c value]; [discriminate|].
  rewrite Hlist in Hrun.
  unfold parse_plain, bind in Hrun.
  destruct (prepare_target E f type prev_val h) as [val h1|]; [|discriminate].
  destruct (parse_composite_impl E flags f (c :: value) 0 type val h1)
    as [[parser_result buf] h2|]; [|discriminate].
  destruct (status parser_result); unfold ret in Hrun.
  - inversion Hrun; subst; discriminate.
  - inversion Hrun; subst; discriminate.
  - destruct (guc_free val h2); [|discriminate].
    inversion Hrun; subst; reflexivity.
  - inversion Hrun; subst; discriminate.
Qed.

Lemma C10_failure_stores_null_witness :
  exists result h',
    is_assignment_list (str "{nodes: [11: {port: 1}]}") = false /\
    parse_composite demo_env 0 100 (str "{nodes: [11: {port: 1}]}")
      (str "cluster") None [] = Ok (false, result) h' /\
    result = Written None.
Proof.
  assert (Hrun : parse_composite demo_env 0 100 (str "{nodes: [11: {port: 1}]}")
                   (str "cluster") None [] = Ok (false, Written None) [BFreed])
    by (vm_compute; reflexivity).
  exists (Written None), [BFreed].
  split; [reflexivity|]. split; [exact Hrun|].
  exact (C10_failure_stores_null demo_env 0 100 (str "{nodes: [11: {port: 1}]}")
           (str "cluster") None [] false (Written None) [BFreed]
           eq_refl Hrun eq_refl).
Defined.

(** ** Layout law *)

Lemma text_eqb_eq : forall a b, text_eqb a b = true <-> a = b.
Proof.
  induction a as [|x a IH]; destruct b as [|y b]; simpl; split; intro H;
    try reflexivity; try discriminate.
  - apply andb_true_iff in H. destruct H as [H1 H2].
    apply Ascii.eqb_eq in H1. apply IH in H2. subst. reflexivity.
  - inversion H; subst. rewrite Ascii.eqb_refl. simpl. apply IH. reflexivity.
Qed.

Lemma text_eqb_refl : forall a, text_eqb a a = true.
Proof. intro a. apply text_eqb_eq. reflexivity. Qed.

Lemma wrap_small : forall z, int_min <= z <= int_max -> wrap z = z.
Proof.
  intros z H. unfold wrap, int_min, int_max in *.
  rewrite Z.mod_small by lia. lia.
Qed.

(** The exact rounding, without the cut to [int]. *)
Definition round_up (total_offset local_off : Z) : Z :=
  if c_mod total_offset local_off =? 0 then total_offset
  else total_offset + (local_off - c_mod total_offset local_off).

Lemma round_up_spec : forall t a,
  0 <= t -> 0 < a ->
  t <= round_up t a < t + a /\ c_mod (round_up t a) a = 0.
Proof.
  intros t a Ht Ha. unfold round_up, c_mod.
  rewrite !Z.rem_mod_nonneg by lia.
  pose proof (Z.mod_pos_bound t a Ha) as Hb.
  destruct (t mod a =? 0) eqn:E.
  - apply Z.eqb_eq in E. rewrite Z.rem_mod_nonneg by lia. lia.
  - apply Z.eqb_neq in E. split; [lia|].
    rewrite Z.rem_mod_nonneg by lia.
    replace (t + (a - t mod a)) with (a + (t - t mod a)) by lia.
    rewrite (Z.div_mod t a) at 1 by lia.
    replace (a + (a * (t / a) + t mod a - t mod a)) with ((1 + t / a) * a) by lia.
    apply Z.mod_mul. lia.
Qed.

Lemma align_up_exact : forall t a,
  0 <= t -> 0 < a -> round_up t a <= int_max -> align_up t a = round_up t a.
Proof.
  intros t a Ht Ha Hm. unfold align_up, round_up in *.
  destruct (c_mod t a =? 0); [reflexivity|].
  apply wrap_small. unfold int_min.
  pose proof (round_up_spec t a Ht Ha) as [H _]. unfold round_up in H.
  unfold c_mod in *. rewrite Z.rem_mod_nonneg in * by lia.
  pose proof (Z.mod_pos_bound t a Ha). lia.
Qed.

(** The layout of a list of fields given as (alignment, size) pairs:
    the offsets as the loop of [get_struct_field_offset] computes them,
    the end of the last field, and the same end in exact arithmetic. *)
Fixpoint offsets_of (l : list (Z * Z)) (total_offset : Z) : list Z :=
  match l with
  | [] => []
  | (a, s) :: rest =>
      let o := align_up total_offset a in o :: offsets_of rest (wrap (o + s))
  end.

Fixpoint end_of (l : list (Z * Z)) (total_offset : Z) : Z :=
  match l with
  | [] => total_offset
  | (a, s) :: rest => end_of rest (wrap (align_up total_offset a + s))
  end.

Fixpoint extent_of (l : list (Z * Z)) (total_offset : Z) : Z :=
  match l with
  | [] => total_offset
  | (a, s) :: rest => extent_of rest (round_up total_offset a + s)
  end.

Definition well_sized (l : list (Z * Z)) : Prop :=
  Forall (fun p => 0 < fst p /\ 0 <= snd p) l.

Lemma extent_of_ge : forall l t, 0 <= t -> well_sized l -> t <= extent_of l t.
Proof.
  induction l as [|[a s] l IH]; simpl; intros t Ht Hw; [lia|].
  inversion Hw as [|? ? [Ha Hs] Hw']; subst; simpl in *.
  pose proof (round_up_spec t a Ht Ha) as [H _].
  assert (H2 : round_up t a + s <= extent_of l (round_up t a + s))
    by (apply IH; [lia | assumption]).
  lia.
Qed.

(** Offsets that are aligned, in order and do not overlap. *)
Fixpoint laid_out (l : list (Z * Z)) (offs : list Z) (from : Z) : Prop :=
  match l, offs with
  | [], [] => True
  | (a, s) :: l', o :: offs' =>
      c_mod o a = 0 /\ from <= o /\ laid_out l' offs' (o + s)
  | _, _ => False
  end.

Lemma offsets_of_laid_out : forall l t,
  0 <= t -> well_sized l -> extent_of l t <= int_max ->
  laid_out l (offsets_of l t) t /\ end_of l t = extent_of l t.
Proof.
  induction l as [|[a s] l IH]; simpl; intros t Ht Hw Hm; [auto|].
  inversion Hw as [|? ? [Ha Hs] Hw']; subst; simpl in *.
  pose proof (round_up_spec t a Ht Ha) as [Hr Hc].
  assert (Hge : round_up t a + s <= extent_of l (round_up t a + s))
    by (apply extent_of_ge; [lia | assumption]).
  assert (Hal : align_up t a = round_up t a) by (apply align_up_exact; lia).
  rewrite Hal.
  assert (Hw2 : wrap (round_up t a + s) = round_up t a + s)
    by (apply wrap_small; unfold int_min; lia).
  rewrite Hw2.
  destruct (IH (round_up t a + s)) as [IH1 IH2]; try assumption; try lia.
  repeat split; try assumption; lia.
Qed.

(** The pairs of the fields of a definition. *)
Definition field_layouts (reg : registry) (fs : list struct_field) : list (Z * Z) :=
  map (fun f => (get_type_offset reg (sf_type f), get_type_size reg (sf_type f))) fs.

(** The positions of the fields of a record, by index. *)
Definition field_offsets (reg : registry) (d : type_definition) : list Z :=
  offsets_of (field_layouts reg (fields d)) 0.

(** The exact size of a record: the end of its last field rounded up to
    the alignment of the record. *)
Definition record_extent (reg : registry) (d : type_definition) : Z :=
  round_up (extent_of (field_layouts reg (fields d)) 0) (offset d).

Definition layout_law (reg : registry) (d : type_definition) : Prop :=
  c_mod (type_size d) (offset d) = 0 /\
  laid_out (field_layouts reg (fields d)) (field_offsets reg d) 0.

(** What [init_fields] returns. *)
Lemma init_fields_spec : forall reg defs acc m c fs m' c',
  init_fields reg defs acc m c = Some (fs, m', c') ->
  exists new,
    fs = rev acc ++ new /\
    c' = end_of (field_layouts reg new) c /\
    m <= m' /\
    Forall (fun p => 0 <= fst p /\ 0 <= snd p) (field_layouts reg new).
Proof.
  intros reg defs. induction defs as [|def defs IH]; simpl; intros acc m c fs m' c' H.
  - inversion H; subst. exists []. simpl. rewrite app_nil_r.
    repeat split; auto; try lia.
  - destruct (strtok_all word_del def) as [|tw [|nw [|x l]]]; try discriminate.
    destruct ((get_type_offset reg tw <? 0) || (get_type_size reg tw <? 0))%bool eqn:Hneg;
      [discriminate|].
    apply orb_false_iff in Hneg. destruct Hneg as [Ho Hs].
    apply Z.ltb_ge in Ho. apply Z.ltb_ge in Hs.
    apply IH in H. destruct H as [new [Hfs [Hc [Hm Hall]]]].
    exists (mk_field tw nw :: new). simpl.
    split; [rewrite Hfs; simpl; rewrite <- app_assoc; reflexivity|].
    split; [exact Hc|].
    split; [destruct (m <? get_type_offset reg tw) eqn:E;
            [apply Z.ltb_lt in E | apply Z.ltb_ge in E]; lia|].
    constructor; simpl; [lia | exact Hall].
Qed.

(** *** Registries built by registration *)

Inductive registered : registry -> Prop :=
| registered_atomic : registered atomic_types
| registered_step : forall reg name sig reg',
    registered reg -> register_type reg name sig = Some reg' -> registered reg'.

Lemma get_type_definition_in : forall reg t d,
  get_type_definition reg t = Some d -> In d reg /\ td_type d = t.
Proof.
  induction reg as [|d0 reg IH]; simpl; intros t d H; [discriminate|].
  destruct (text_eqb (td_type d0) t) eqn:E.
  - inversion H; subst. apply text_eqb_eq in E. auto.
  - apply IH in H. tauto.
Qed.

Definition positive_alignments (reg : registry) : Prop :=
  forall d, In d reg -> 0 < offset d.

Lemma get_type_offset_aux_pos : forall reg,
  positive_alignments reg ->
  forall k t, 0 <= get_type_offset_aux reg k t -> 0 < get_type_offset_aux reg k t.
Proof.
  intros reg Hreg. induction k as [|k IH]; intros [t|]; simpl; try lia.
  - destruct (is_dynamic_array_type t); [unfold sizeof_ptr; lia|].
    destruct (is_static_array_type t); [lia|].
    unfold get_struct_offset.
    destruct (get_type_definition reg t) as [d|] eqn:E; [|lia].
    apply get_type_definition_in in E. intros _. apply Hreg. tauto.
  - destruct (is_dynamic_array_type t); [unfold sizeof_ptr; lia|].
    destruct (is_static_array_type t).
    + destruct (get_array_basic_type t) as [b|]; [|lia].
      destruct (get_type_offset_aux reg k (Some b) <? 0) eqn:E; [lia|].
      intros _. apply IH. apply Z.ltb_ge in E. exact E.
    + unfold get_struct_offset.
      destruct (get_type_definition reg t) as [d|] eqn:E; [|lia].
      apply get_type_definition_in in E. intros _. apply Hreg. tauto.
Qed.

(** Entering a new name leaves the layout of the known types as it is. *)
Section Stability.

Variables (reg : registry) (d0 : type_definition).
Hypothesis Hnew : get_type_definition reg (td_type d0) = None.

Lemma get_type_definition_cons : forall t d,
  get_type_definition reg t = Some d ->
  get_type_definition (d0 :: reg) t = Some d.
Proof.
  intros t d H. simpl. destruct (text_eqb (td_type d0) t) eqn:E; [|exact H].
  apply text_eqb_eq in E. subst. rewrite Hnew in H. discriminate.
Qed.

Lemma get_type_offset_aux_cons : forall k t,
  0 <= get_type_offset_aux reg k t ->
  get_type_offset_aux (d0 :: reg) k t = get_type_offset_aux reg k t.
Proof.
  induction k as [|k IH]; intros [t|]; simpl; try reflexivity.
  - destruct (is_dynamic_array_type t); [reflexivity|].
    destruct (is_static_array_type t); [reflexivity|].
    unfold get_struct_offset.
    destruct (get_type_definition reg t) as [d|] eqn:E; [|lia].
    intros _. rewrite (get_type_definition_cons _ _ E). reflexivity.
  - destruct (is_dynamic_array_type t); [reflexivity|].
    destruct (is_static_array_type t).
    + destruct (get_array_basic_type t) as [b|]; [|reflexivity].
      destruct (get_type_offset_aux reg k (Some b) <? 0) eqn:E; [lia|].
      intros _. apply Z.ltb_ge in E. rewrite (IH _ E).
      apply Z.ltb_ge in E. rewrite E. reflexivity.
    + unfold get_struct_offset.
      destruct (get_type_definition reg t) as [d|] eqn:E; [|lia].
      intros _. rewrite (get_type_definition_cons _ _ E). reflexivity.
Qed.

Lemma get_type_size_aux_cons : forall k t,
  0 <= get_type_offset_aux reg k t ->
  0 <= get_type_size_aux reg k t ->
  get_type_size_aux (d0 :: reg) k t = get_type_size_aux reg k t.
Proof.
  induction k as [|k IH]; intros [t|]; simpl; try reflexivity.
  - destruct (is_dynamic_array_type t); [reflexivity|].
    destruct (is_static_array_type t); [reflexivity|].
    unfold get_struct_size.
    destruct (get_type_definition reg t) as [d|] eqn:E; [|lia].
    intros _ _. rewrite (get_type_definition_cons _ _ E). reflexivity.
  - destruct (is_dynamic_array_type t); [reflexivity|].
    destruct (is_static_array_type t).
    + destruct ((get_type_offset_aux reg k (get_array_basic_type t) <? 0)
                || (get_type_size_aux reg k (get_array_basic_type t) <? 0))%bool eqn:E;
        [lia|].
      intros _ _. apply orb_false_iff in E. destruct E as [E1 E2].
      apply Z.ltb_ge in E1. apply Z.ltb_ge in E2.
      rewrite (get_type_offset_aux_cons _ _ E1), (IH _ E1 E2).
      apply Z.ltb_ge in E1. apply Z.ltb_ge in E2. rewrite E1, E2. reflexivity.
    + unfold get_struct_size.
      destruct (get_type_definition reg t) as [d|] eqn:E; [|lia].
      intros _ _. rewrite (get_type_definition_cons _ _ E). reflexivity.
Qed.

End Stability.

Lemma field_layouts_cons : forall reg d0 fs,
  get_type_definition reg (td_type d0) = None ->
  Forall (fun p => 0 <= fst p /\ 0 <= snd p) (field_layouts reg fs) ->
  field_layouts (d0 :: reg) fs = field_layouts reg fs.
Proof.
  intros reg d0 fs Hnew. induction fs as [|f fs IH]; simpl; intro H; [reflexivity|].
  inversion H as [|? ? [Ho Hs] H']; subst; simpl in *.
  rewrite IH by assumption. unfold get_type_offset, get_type_size,
    get_type_offset_opt, get_type_size_opt in *.
  rewrite get_type_offset_aux_cons, get_type_size_aux_cons by assumption.
  reflexivity.
Qed.

Definition registry_ok (reg : registry) : Prop :=
  positive_alignments reg /\
  (forall d, In d reg ->
     Forall (fun p => 0 <= fst p /\ 0 <= snd p) (field_layouts reg (fields d))) /\
  (forall d, In d reg -> record_extent reg d <= int_max -> layout_law reg d).

Lemma well_sized_layouts : forall reg fs,
  positive_alignments reg ->
  Forall (fun p => 0 <= fst p /\ 0 <= snd p) (field_layouts reg fs) ->
  well_sized (field_layouts reg fs).
Proof.
  intros reg fs Hp. induction fs as [|f fs IH]; simpl; intro H; constructor;
    inversion H as [|? ? [Ho Hs] H']; subst; simpl in *.
  - split; [|assumption]. apply get_type_offset_aux_pos; assumption.
  - apply IH. assumption.
Qed.

Lemma init_type_definition_law : forall reg definition d,
  positive_alignments reg ->
  init_type_definition reg definition = InitOk d ->
  0 < offset d /\
  Forall (fun p => 0 <= fst p /\ 0 <= snd p) (field_layouts reg (fields d)) /\
  (record_extent reg d <= int_max -> layout_law reg d).
Proof.
  intros reg definition d Hp H. unfold init_type_definition in H.
  destruct (cstr (signature definition)) as [|c0 sym] eqn:Hsig; [discriminate|].
  destruct (init_fields reg (strtok_all def_del (c0 :: sym)) [] 0 0)
    as [[[fs m] c]|] eqn:Hf; [|discriminate].
  destruct (m =? 0) eqn:Hm; [discriminate|].
  inversion H; subst; clear H. simpl.
  apply init_fields_spec in Hf. destruct Hf as [new [Hfs [Hc [Hm0 Hall]]]].
  simpl in Hfs. subst fs. apply Z.eqb_neq in Hm.
  split; [lia|]. split; [exact Hall|].
  unfold record_extent, layout_law, field_offsets. simpl. intro Hext.
  pose proof (well_sized_layouts reg new Hp Hall) as Hw.
  pose proof (extent_of_ge _ 0 (Z.le_refl 0) Hw) as Hge.
  assert (Hmp : 0 < m) by lia.
  pose proof (round_up_spec _ m Hge Hmp) as [Hr Hrm].
  destruct (offsets_of_laid_out _ 0 (Z.le_refl 0) Hw) as [Hl He]; [lia|].
  split; [|exact Hl].
  rewrite Hc, He, align_up_exact by lia. exact Hrm.
Qed.

Lemma registered_ok : forall reg, registered reg -> registry_ok reg.
Proof.
  induction 1 as [|reg name sig reg' Hreg IH Hstep].
  - split; [|split].
    + intros d Hd. simpl in Hd.
      repeat (destruct Hd as [Hd|Hd]; [subst; simpl; lia|]). contradiction.
    + intros d Hd. simpl in Hd.
      repeat (destruct Hd as [Hd|Hd]; [subst; constructor|]). contradiction.
    + intros d Hd _. simpl in Hd.
      repeat (destruct Hd as [Hd|Hd]; [subst; split; [reflexivity | exact I]|]).
      contradiction.
  - destruct IH as [Hp [Hnn Hlaw]].
    unfold register_type in Hstep.
    destruct (get_type_definition reg name) eqn:Hnew; [discriminate|].
    destruct (init_type_definition reg (mk_def name sig 0 [] 0 0)) as [d| |] eqn:Hinit;
      try discriminate.
    inversion Hstep; subst; clear Hstep.
    assert (Hname : td_type d = name).
    { unfold init_type_definition in Hinit. simpl in Hinit.
      destruct (cstr sig); [discriminate|].
      destruct (init_fields _ _ _ _ _) as [[[? ?] ?]|]; [|discriminate].
      destruct (_ =? 0); [discriminate|]. inversion Hinit; reflexivity. }
    rewrite <- Hname in Hnew.
    destruct (init_type_definition_law _ _ _ Hp Hinit) as [Hd0 [Hd1 Hd2]].
    split; [|split].
    + intros d' [Hd'|Hd']; [subst; assumption | apply Hp; assumption].
    + intros d' [Hd'|Hd'].
      * subst. rewrite field_layouts_cons by assumption. assumption.
      * rewrite field_layouts_cons by auto. auto.
    + intros d' Hin Hext.
      assert (Hfl : field_layouts (d :: reg) (fields d') = field_layouts reg (fields d')).
      { destruct Hin as [Hin|Hin]; [subst|]; apply field_layouts_cons; auto. }
      unfold layout_law, field_offsets, record_extent in *. rewrite Hfl in *.
      destruct Hin as [Hin|Hin]; [subst; apply Hd2 | apply Hlaw]; assumption.
Qed.

(** The positional reading of [laid_out]. *)
Lemma laid_out_nth : forall l offs from,
  laid_out l offs from ->
  List.length offs = List.length l /\
  (forall i a s o, nth_error l i = Some (a, s) -> nth_error offs i = Some o ->
     c_mod o a = 0) /\
  (forall i a s o o', nth_error l i = Some (a, s) -> nth_error offs i = Some o ->
     nth_error offs (S i) = Some o' -> o + s <= o').
Proof.
  induction l as [|[a s] l IH]; intros [|o offs] from H; simpl in H; try contradiction.
  - repeat split; intros [|k]; discriminate.
  - destruct H as [Hc [Hf Hl]]. destruct (IH _ _ Hl) as [IH1 [IH2 IH3]].
    split; [simpl; congruence|]. split.
    + intros [|k] a' s' o1 H1 H2; simpl in *.
      * inversion H1; inversion H2; subst. assumption.
      * eapply IH2; eassumption.
    + intros [|k] a' s' o1 o2 H1 H2 H3; simpl in *.
      * inversion H1; inversion H2; subst.
        destruct l as [|[a2 s2] l2]; destruct offs as [|o3 offs2];
          simpl in *; try discriminate; try contradiction.
        inversion H3; subst. tauto.
      * eapply IH3; eassumption.
Qed.

(** [get_struct_field_offset] returns the position of the first field
    with the given name. *)
Lemma struct_field_offset_loop_nth : forall reg fs n total field i f,
  nth_error fs i = Some f ->
  sf_name f = field ->
  (forall j g, (j < i)%nat -> nth_error fs j = Some g -> sf_name g <> field) ->
  (forall j g, (j <= i)%nat -> nth_error fs j = Some g ->
     0 <= get_type_offset reg (sf_type g)) ->
  (i < n)%nat ->
  Some (struct_field_offset_loop reg fs n total field)
  = nth_error (offsets_of (field_layouts reg fs) total) i.
Proof.
  intros reg fs. induction fs as [|g fs IH]; intros n total field i f Hf Hn Hbefore Hpos Hi.
  - destruct i; discriminate.
  - destruct n as [|n]; [lia|]. simpl.
    assert (Hg : 0 <= get_type_offset reg (sf_type g))
      by (apply (Hpos O g); [lia | reflexivity]).
    apply Z.ltb_ge in Hg. rewrite Hg.
    destruct i as [|i]; simpl in *.
    + inversion Hf; subst. rewrite text_eqb_refl. reflexivity.
    + destruct (text_eqb (sf_name g) field) eqn:E.
      * apply text_eqb_eq in E. exfalso. apply (Hbefore O g); [lia | reflexivity | exact E].
      * apply (IH n _ field i f); try assumption; try lia.
        -- intros j g' Hj Hg'. apply (Hbefore (S j) g'); [lia | exact Hg'].
        -- intros j g' Hj Hg'. apply (Hpos (S j) g'); [lia | exact Hg'].
Qed.

(** C8 as amended: for every record registered successfully whose layout
    stays within the range of [int] (its exact size is at most INT_MAX),
    the size is a multiple of the alignment, the offset of every field is
    a multiple of the alignment of the field, and every field starts at
    or after the end of the field before it. *)
Theorem C8_layout_law_within_int :
  forall reg d,
    registered reg -> In d reg ->
    record_extent reg d <= int_max ->
    c_mod (type_size d) (offset d) = 0 /\
    (forall i f o,
       nth_error (fields d) i = Some f -> nth_error (field_offsets reg d) i = Some o ->
       c_mod o (get_type_offset reg (sf_type f)) = 0) /\
    (forall i f o o',
       nth_error (fields d) i = Some f -> nth_error (field_offsets reg d) i = Some o ->
       nth_error (field_offsets reg d) (S i) = Some o' ->
       o + get_type_size reg (sf_type f) <= o').
Proof.
  intros reg d Hreg Hin Hext.
  destruct (registered_ok reg Hreg) as [_ [_ Hlaw]].
  destruct (Hlaw d Hin Hext) as [Hsize Hl].
  destruct (laid_out_nth _ _ _ Hl) as [_ [Ha Hm]].
  split; [exact Hsize|]. split.
  - intros i f o Hf Ho.
    apply (Ha i _ (get_type_size reg (sf_type f)) o); [|exact Ho].
    unfold field_layouts. rewrite nth_error_map, Hf. reflexivity.
  - intros i f o o' Hf Ho Ho'.
    apply (Hm i (get_type_offset reg (sf_type f)) _ o o'); try assumption.
    unfold field_layouts. rewrite nth_error_map, Hf. reflexivity.
Qed.

Definition node_registry : registry :=
  match register_type atomic_types (str "node") (str "string name; string ip; int port") with
  | Some r => r
  | None => []
  end.

Lemma demo_registry_registered : registered demo_registry.
Proof.
  apply (registered_step node_registry (str "cluster")
           (str "string name; int size; node[10] nodes")).
  - apply (registered_step atomic_types (str "node")
             (str "string name; string ip; int port")).
    + apply registered_atomic.
    + vm_compute. reflexivity.
  - vm_compute. reflexivity.
Qed.

Definition cluster_def : type_definition :=
  match get_type_definition demo_registry (str "cluster") with
  | Some d => d
  | None => mk_def [] [] 0 [] 0 0
  end.

Lemma C8_layout_law_within_int_witness :
  In cluster_def demo_registry /\
  record_extent demo_registry cluster_def <= int_max /\
  field_offsets demo_registry cluster_def = [0; 8; 16] /\
  c_mod (type_size cluster_def) (offset cluster_def) = 0.
Proof.
  assert (Hin : In cluster_def demo_registry) by (left; vm_compute; reflexivity).
  assert (Hext : record_extent demo_registry cluster_def <= int_max)
    by (vm_compute; discriminate).
  split; [exact Hin|]. split; [exact Hext|]. split; [vm_compute; reflexivity|].
  exact (proj1 (C8_layout_law_within_int demo_registry cluster_def
                  demo_registry_registered Hin Hext)).
Defined.

(** The claim without the bound fails: with a field of 2147483645 bytes
    the running offset passes INT_MAX and the next field lands at a
    negative offset. *)
Definition big_registry : registry :=
  match register_type atomic_types (str "big") (str "bool[2147483645] a; real b") with
  | Some r => r
  | None => []
  end.

Definition big_def : type_definition :=
  match get_type_definition big_registry (str "big") with
  | Some d => d
  | None => mk_def [] [] 0 [] 0 0
  end.

Lemma C8_layout_law_counterexample :
  registered big_registry /\ In big_def big_registry /\
  fields big_def = [mk_field (str "bool[2147483645]") (str "a");
                    mk_field (str "real") (str "b")] /\
  field_offsets big_registry big_def = [0; -2147483648] /\
  get_struct_field_offset big_registry (str "big") (str "b") = -2147483648 /\
  ~ (0 + get_type_size big_registry (str "bool[2147483645]") <= -2147483648).
Proof.
  split; [apply (registered_step atomic_types (str "big")
                   (str "bool[2147483645] a; real b"));
          [apply registered_atomic | vm_compute; reflexivity]|].
  split; [left; vm_compute; reflexivity|].
  split; [vm_compute; reflexivity|].
  split; [vm_compute; reflexivity|].
  split; [vm_compute; reflexivity|].
  vm_compute. intro H. apply H. reflexivity.
Qed.

(** ** The previous value survives *)

(** What a read-only computation returns. *)
Definition loads {A} (m : M A) (h : heap) : option A :=
  match m h with
  | Ok a _ => Some a
  | Fail _ => None
  end.

Definition no_ptr (bs : list mbyte) : bool :=
  forallb (fun b => match b with Frag (SPtr _ _) _ => false | _ => true end) bs.

Definition is_string_block (h : heap) (p : pointer) : bool :=
  match loads (load_str p) h with
  | Some _ => true
  | None => false
  end.

(** A value of a type, as the walker reads it: strings are null or
    string blocks, variable arrays have a readable header and valid
    elements, the bytes of the other atomic values hold no pointer. *)
Fixpoint valid_value (reg : registry) (fuel : nat) (h : heap) (p : pointer)
  (type : text) : bool :=
  match fuel with
  | O => false
  | S f =>
      if is_static_array_type type then
        match get_array_basic_type type with
        | None => false
        | Some b =>
            forallb (fun i =>
                       valid_value reg f h
                         (ptr_add p (get_element_offset_with_index reg type i)) b)
                    (zrange (get_static_array_size type))
        end
      else if is_dynamic_array_type type then
        match loads (dynamic_array_size p) h, loads (load_ptr p) h,
              get_array_basic_type type with
        | Some len, Some datap, Some b =>
            forallb (fun i =>
                       valid_value reg f h
                         (ptr_add datap (get_element_offset_with_index reg type i)) b)
                    (zrange len)
        | _, _, _ => false
        end
      else
        match get_type_definition reg type with
        | None => false
        | Some d =>
            if cnt_fields d =? 0 then
              if text_eqb type (str "string") then
                match loads (load_ptr p) h with
                | Some None => true
                | Some q => is_string_block h q
                | None => false
                end
              else
                match loads (load_bytes p (Z.to_nat (type_size d))) h with
                | Some bs => no_ptr bs
                | None => false
                end
            else
              forallb (fun s =>
                         match s with
                         | Some fd =>
                             valid_value reg f h
                               (ptr_add p (get_field_offset reg type (sf_name fd)))
                               (sf_type fd)
                         | None => false
                         end)
                      (field_slots d)
        end
  end.

Section Frame.

Variable h0 : heap.

Definition fresh_ptr (p : pointer) : Prop :=
  match p with
  | Some (b, _) => (List.length h0 <= b)%nat
  | None => True
  end.

Definition fresh_bytes (bs : list mbyte) : Prop :=
  forall b o k, In (Frag (SPtr b o) k) bs -> (List.length h0 <= b)%nat.

Definition fresh_ext (ext : heap) : Prop :=
  forall bytes, In (BData bytes) ext -> fresh_bytes bytes.

(** [m] leaves the blocks of [h0] as they are and keeps the pointers
    stored in later blocks away from them. *)
Definition keeps {A} (m : M A) (Q : A -> Prop) : Prop :=
  forall ext a h',
    fresh_ext ext -> m (h0 ++ ext) = Ok a h' ->
    exists ext', h' = h0 ++ ext' /\ fresh_ext ext' /\ Q a.

Lemma keeps_ret : forall A (a : A) (Q : A -> Prop), Q a -> keeps (ret a) Q.
Proof.
  intros A a Q HQ ext a' h' Hf H. inversion H; subst. exists ext. auto.
Qed.

Lemma keeps_fail : forall A f (Q : A -> Prop), keeps (fail f) Q.
Proof. intros A f Q ext a h' _ H. discriminate. Qed.

Lemma keeps_bind : forall A B (m : M A) (k : A -> M B) Q R,
  keeps m Q -> (forall a, Q a -> keeps (k a) R) -> keeps (bind m k) R.
Proof.
  intros A B m k Q R Hm Hk ext b h' Hf H. unfold bind in H.
  destruct (m (h0 ++ ext)) as [a h1|] eqn:E; [|discriminate].
  destruct (Hm ext a h1 Hf E) as [ext1 [-> [Hf1 HQ]]].
  exact (Hk a HQ ext1 b h' Hf1 H).
Qed.

Lemma keeps_weaken : forall A (m : M A) (Q R : A -> Prop),
  keeps m Q -> (forall a, Q a -> R a) -> keeps m R.
Proof.
  intros A m Q R Hm HQR ext a h' Hf H.
  destruct (Hm ext a h' Hf H) as [ext' [-> [Hf' HQ]]]. exists ext'. auto.
Qed.

Lemma keeps_bind_any : forall A B (m : M A) (k : A -> M B) R,
  keeps m (fun _ => True) -> (forall a, keeps (k a) R) -> keeps (bind m k) R.
Proof. intros. eapply keeps_bind; eauto. Qed.

(** *** Lists *)

Lemma nth_error_ext : forall (ext : heap) b,
  (List.length h0 <= b)%nat ->
  nth_error (h0 ++ ext) b = nth_error ext (b - List.length h0).
Proof. intros. apply nth_error_app2. assumption. Qed.

Lemma upd_nth_app2 : forall A (l1 l2 : list A) i x,
  (List.length l1 <= i)%nat ->
  upd_nth (l1 ++ l2) i x = l1 ++ upd_nth l2 (i - List.length l1) x.
Proof.
  induction l1 as [|y l1 IH]; intros l2 i x Hi.
  - simpl. f_equal. lia.
  - destruct i as [|i]; [simpl in Hi; lia|].
    change (y :: upd_nth (l1 ++ l2) i x = y :: l1 ++ upd_nth l2 (i - List.length l1) x).
    rewrite IH by (simpl in Hi; lia). reflexivity.
Qed.

Lemma In_upd_nth : forall A (l : list A) i x y,
  In y (upd_nth l i x) -> y = x \/ In y l.
Proof.
  induction l as [|z l IH]; simpl; intros i x y H; [contradiction|].
  destruct i; simpl in H.
  - destruct H; auto.
  - destruct H as [H|H]; [auto|]. apply IH in H. tauto.
Qed.

Lemma In_skipn_sub : forall A n (l : list A) x, In x (skipn n l) -> In x l.
Proof.
  intros A n l x H. rewrite <- (firstn_skipn n l). apply in_or_app. auto.
Qed.

Lemma In_firstn_sub : forall A n (l : list A) x, In x (firstn n l) -> In x l.
Proof.
  intros A n l x H. rewrite <- (firstn_skipn n l). apply in_or_app. auto.
Qed.

Lemma In_blit : forall A (l : list A) i src y,
  In y (blit l i src) -> In y src \/ In y l.
Proof.
  induction l as [|z l IH]; intros i src y H.
  - destruct i; simpl in H; [|contradiction].
    apply in_app_or in H. destruct H as [H|H]; [auto|].
    right. eapply In_skipn_sub. exact H.
  - destruct i; simpl in H.
    + apply in_app_or in H. destruct H as [H|H]; [auto|].
      right. eapply In_skipn_sub. exact H.
    + destruct H as [H|H]; [right; left; exact H|].
      apply IH in H. destruct H; [auto | right; right; assumption].
Qed.

(** *** Reads *)

(** A computation that only reads, and reads the same when blocks are
    appended to the heap. *)
Definition stable_read {A} (m : M A) : Prop :=
  forall h a h', m h = Ok a h' ->
    h' = h /\ forall ext, m (h ++ ext) = Ok a (h ++ ext).

Lemma stable_read_ret : forall A (a : A), stable_read (ret a).
Proof. intros A a h a' h' H. inversion H; subst. split; reflexivity. Qed.

Lemma stable_read_fail : forall A f, stable_read (@fail A f).
Proof. intros A f h a h' H. discriminate. Qed.

Lemma stable_read_bind : forall A B (m : M A) (k : A -> M B),
  stable_read m -> (forall a, stable_read (k a)) -> stable_read (bind m k).
Proof.
  intros A B m k Hm Hk h b h' H. unfold bind in *.
  destruct (m h) as [a h1|] eqn:E; [|discriminate].
  destruct (Hm _ _ _ E) as [-> Hext].
  destruct (Hk a _ _ _ H) as [-> Hext2].
  split; [reflexivity|]. intro ext. rewrite Hext. apply Hext2.
Qed.

Lemma nth_error_app_some : forall A (l ext : list A) i x,
  nth_error l i = Some x -> nth_error (l ++ ext) i = Some x.
Proof.
  intros A l ext i x H. rewrite nth_error_app1; [exact H|].
  apply nth_error_Some. congruence.
Qed.

Lemma stable_read_load_bytes : forall p k, stable_read (load_bytes p k).
Proof.
  intros [[b o]|] k h a h' H; unfold load_bytes in *; [|discriminate].
  destruct (nth_error h b) as [[bytes| |]|] eqn:E; try discriminate.
  destruct (in_bounds o k (List.length bytes)) eqn:Eb; [|discriminate].
  inversion H; subst. split; [reflexivity|]. intro ext.
  rewrite (nth_error_app_some _ _ _ _ _ E), Eb. reflexivity.
Qed.

Lemma stable_read_load_str : forall p, stable_read (load_str p).
Proof.
  intros [[b o]|] h a h' H; unfold load_str in *; [|discriminate].
  destruct o; try discriminate.
  destruct (nth_error h b) as [[bytes|s|]|] eqn:E; try discriminate.
  inversion H; subst. split; [reflexivity|]. intro ext.
  rewrite (nth_error_app_some _ _ _ _ _ E). reflexivity.
Qed.

Lemma stable_read_load_scalar : forall p k, stable_read (load_scalar p k).
Proof.
  intros p k. unfold load_scalar. apply stable_read_bind.
  - apply stable_read_load_bytes.
  - intro bs. destruct (decode bs); [apply stable_read_ret | apply stable_read_fail].
Qed.

Ltac stable_scalar :=
  apply stable_read_bind;
  [ apply stable_read_load_scalar
  | intros [[| | |]|]; first [apply stable_read_ret | apply stable_read_fail] ].

Lemma stable_read_load_int : forall p, stable_read (load_int p).
Proof. intro p. unfold load_int. stable_scalar. Qed.

Lemma stable_read_load_bool : forall p, stable_read (load_bool p).
Proof. intro p. unfold load_bool. stable_scalar. Qed.

Lemma stable_read_load_real : forall p, stable_read (load_real p).
Proof. intro p. unfold load_real. stable_scalar. Qed.

Lemma stable_read_load_ptr : forall p, stable_read (load_ptr p).
Proof. intro p. unfold load_ptr. stable_scalar. Qed.

Lemma stable_read_dynamic_array_size : forall p, stable_read (dynamic_array_size p).
Proof. intro p. apply stable_read_load_int. Qed.

Lemma keeps_read : forall A (m : M A), stable_read m -> keeps m (fun _ => True).
Proof.
  intros A m Hm ext a h' Hf H. destruct (Hm _ _ _ H) as [-> _].
  exists ext. auto.
Qed.

Lemma keeps_read_old : forall A (m : M A) a,
  stable_read m -> loads m h0 = Some a -> keeps m (fun x => x = a).
Proof.
  intros A m a Hm Hl ext a' h' Hf H. unfold loads in Hl.
  destruct (m h0) as [a0 h1|] eqn:E; [|discriminate]. inversion Hl; subst.
  destruct (Hm _ _ _ E) as [-> Hext]. rewrite Hext in H. inversion H; subst.
  exists ext. auto.
Qed.

Lemma fresh_ptr_add : forall p off, fresh_ptr p -> fresh_ptr (ptr_add p off).
Proof. intros [[b o]|] off H; simpl in *; auto. Qed.

Lemma fresh_ptr_null : fresh_ptr None.
Proof. exact I. Qed.

Lemma keeps_load_bytes : forall p k,
  fresh_ptr p -> keeps (load_bytes p k) fresh_bytes.
Proof.
  intros [[b o]|] k Hp ext a h' Hf H; unfold load_bytes in H; [|discriminate].
  simpl in Hp. rewrite nth_error_ext in H by assumption.
  destruct (nth_error ext (b - List.length h0)) as [[bytes| |]|] eqn:E; try discriminate.
  destruct (in_bounds o k (List.length bytes)); [|discriminate].
  inversion H; subst. exists ext. split; [reflexivity|]. split; [assumption|].
  intros b' o' k' Hin. apply (Hf bytes (nth_error_In _ _ E) b' o' k').
  eapply In_skipn_sub, In_firstn_sub, Hin.
Qed.

Lemma decode_in : forall bs v, decode bs = Some (Some v) -> In (Frag v 0) bs.
Proof.
  intros bs v H. unfold decode in H. destruct (all_zero bs); [discriminate|].
  destruct bs as [|[| |v' [|k]] rest]; try discriminate.
  destruct (is_frags v' 1 rest); inversion H; subst. left. reflexivity.
Qed.

Lemma keeps_load_ptr : forall p, fresh_ptr p -> keeps (load_ptr p) fresh_ptr.
Proof.
  intros p Hp. unfold load_ptr, load_scalar.
  eapply keeps_bind.
  - eapply keeps_bind; [apply keeps_load_bytes; exact Hp|].
    intros bs Hbs. destruct (decode bs) as [v|] eqn:E; [|apply keeps_fail].
    apply (keeps_ret _ v (fun v => forall b o, v = Some (SPtr b o) ->
                                      (List.length h0 <= b)%nat)).
    intros b o ->. apply decode_in in E. exact (Hbs _ _ _ E).
  - intros [[| | |b o]|] Hv; try apply keeps_fail; apply keeps_ret; simpl.
    + eapply Hv. reflexivity.
    + exact I.
Qed.

Lemma keeps_store_bytes : forall p bs,
  fresh_ptr p -> fresh_bytes bs -> keeps (store_bytes p bs) (fun _ => True).
Proof.
  intros [[b o]|] bs Hp Hbs ext a h' Hf H; unfold store_bytes in H; [|discriminate].
  simpl in Hp. rewrite nth_error_ext in H by assumption.
  destruct (nth_error ext (b - List.length h0)) as [[bytes| |]|] eqn:E; try discriminate.
  destruct (in_bounds o (List.length bs) (List.length bytes)); [|discriminate].
  inversion H; subst. rewrite upd_nth_app2 by assumption.
  eexists. split; [reflexivity|]. split; [|exact I].
  intros bytes' Hin. apply In_upd_nth in Hin. destruct Hin as [Hin|Hin].
  - inversion Hin; subst. intros b' o' k' Hin'. apply In_blit in Hin'.
    destruct Hin' as [Hin'|Hin']; [exact (Hbs _ _ _ Hin')|].
    exact (Hf bytes (nth_error_In _ _ E) _ _ _ Hin').
  - exact (Hf _ Hin).
Qed.

Lemma fresh_bytes_repeat : forall k, fresh_bytes (repeat Zero k).
Proof. intros k b o j H. apply repeat_spec in H. discriminate. Qed.

Lemma fresh_bytes_frags : forall v k,
  (forall b o, v = SPtr b o -> (List.length h0 <= b)%nat) -> fresh_bytes (frags v k).
Proof.
  intros v k Hv b o j H. unfold frags in H. apply in_map_iff in H.
  destruct H as [x [Hx _]]. inversion Hx; subst. eapply Hv. reflexivity.
Qed.

Lemma keeps_store_int : forall p z, fresh_ptr p -> keeps (store_int p z) (fun _ => True).
Proof.
  intros p z Hp. unfold store_int. apply keeps_store_bytes; [exact Hp|].
  destruct (z =? 0); [apply fresh_bytes_repeat | apply fresh_bytes_frags; discriminate].
Qed.

Lemma keeps_store_bool : forall p b, fresh_ptr p -> keeps (store_bool p b) (fun _ => True).
Proof.
  intros p b Hp. unfold store_bool. apply keeps_store_bytes; [exact Hp|].
  destruct b; [apply fresh_bytes_frags; discriminate | apply fresh_bytes_repeat].
Qed.

Lemma keeps_store_real : forall p r, fresh_ptr p -> keeps (store_real p r) (fun _ => True).
Proof.
  intros p r Hp. unfold store_real. apply keeps_store_bytes; [exact Hp|].
  destruct (real_same r real_zero);
    [apply fresh_bytes_repeat | apply fresh_bytes_frags; discriminate].
Qed.

Lemma keeps_store_ptr : forall p q,
  fresh_ptr p -> fresh_ptr q -> keeps (store_ptr p q) (fun _ => True).
Proof.
  intros p q Hp Hq. unfold store_ptr. apply keeps_store_bytes; [exact Hp|].
  destruct q as [[b o]|]; [|apply fresh_bytes_repeat].
  apply fresh_bytes_frags. intros b' o' H. inversion H; subst. exact Hq.
Qed.

Lemma fresh_ext_app : forall ext blk,
  fresh_ext ext -> (forall bytes, blk = BData bytes -> fresh_bytes bytes) ->
  fresh_ext (ext ++ [blk]).
Proof.
  intros ext blk Hf Hb bytes Hin. apply in_app_or in Hin.
  destruct Hin as [Hin|[Hin|[]]]; [exact (Hf _ Hin) | exact (Hb _ Hin)].
Qed.

Lemma keeps_guc_malloc : forall z, keeps (guc_malloc z) fresh_ptr.
Proof.
  intros z ext a h' Hf H. unfold guc_malloc in H.
  destruct (z <? 0); [discriminate|]. inversion H; subst.
  rewrite <- app_assoc. eexists. split; [reflexivity|]. split.
  - apply fresh_ext_app; [exact Hf|]. intros bytes Hb. inversion Hb; subst.
    intros b o k Hin. apply repeat_spec in Hin. discriminate.
  - simpl. rewrite length_app. lia.
Qed.

Lemma keeps_guc_strdup : forall s, keeps (guc_strdup s) fresh_ptr.
Proof.
  intros s ext a h' Hf H. unfold guc_strdup in H. inversion H; subst.
  rewrite <- app_assoc. eexists. split; [reflexivity|]. split.
  - apply fresh_ext_app; [exact Hf|]. intros bytes Hb. discriminate.
  - simpl. rewrite length_app. lia.
Qed.

Lemma keeps_guc_free : forall p, fresh_ptr p -> keeps (guc_free p) (fun _ => True).
Proof.
  intros [[b o]|] Hp ext a h' Hf H; unfold guc_free in H.
  - destruct o; try discriminate. simpl in Hp.
    rewrite nth_error_ext in H by assumption.
    destruct (nth_error ext (b - List.length h0)) as [[bytes|s|]|] eqn:E;
      try discriminate; inversion H; subst; rewrite upd_nth_app2 by assumption;
      (eexists; split; [reflexivity|]; split; [|exact I];
       intros bytes' Hin; apply In_upd_nth in Hin;
       destruct Hin as [Hin|Hin]; [discriminate | exact (Hf _ Hin)]).
  - inversion H; subst. exists ext. auto.
Qed.

Lemma keeps_memcpy : forall dst src z,
  fresh_ptr dst -> fresh_ptr src -> keeps (memcpy dst src z) (fun _ => True).
Proof.
  intros dst src z Hd Hs. unfold memcpy.
  destruct (z =? 0); [apply keeps_ret; exact I|].
  destruct (z <? 0); [apply keeps_fail|].
  eapply keeps_bind; [apply keeps_load_bytes; exact Hs|].
  intros bs Hbs. apply keeps_store_bytes; assumption.
Qed.

Lemma keeps_memset0 : forall dst z, fresh_ptr dst -> keeps (memset0 dst z) (fun _ => True).
Proof.
  intros dst z Hd. unfold memset0.
  destruct (z =? 0); [apply keeps_ret; exact I|].
  destruct (z <? 0); [apply keeps_fail|].
  apply keeps_store_bytes; [exact Hd | apply fresh_bytes_repeat].
Qed.

Lemma keeps_for_each : forall A (l : list A) (body : A -> M unit),
  (forall x, In x l -> keeps (body x) (fun _ => True)) ->
  keeps (for_each l body) (fun _ => True).
Proof.
  induction l as [|x l IH]; intros body H; simpl.
  - apply keeps_ret. exact I.
  - apply keeps_bind_any; [apply H; left; reflexivity|].
    intros _. apply IH. intros y Hy. apply H. right. exact Hy.
Qed.

Lemma keeps_lift_fuel : forall A (o : option A), keeps (lift_fuel o) (fun _ => True).
Proof. intros A [a|]; [apply keeps_ret; exact I | apply keeps_fail]. Qed.

Lemma keeps_with_type : forall A (t : option text) (k : text -> M A) Q,
  (forall x, t = Some x -> keeps (k x) Q) -> keeps (with_type t k) Q.
Proof. intros A [x|] k Q H; simpl; [apply H; reflexivity | apply keeps_fail]. Qed.

End Frame.

(** *** The parser writes fresh blocks only *)

Ltac kfresh :=
  repeat first [ assumption | apply fresh_ptr_add | apply fresh_ptr_null | exact I ].

Ltac kread :=
  first [ apply stable_read_load_int | apply stable_read_load_ptr
        | apply stable_read_load_bool | apply stable_read_load_real
        | apply stable_read_load_str | apply stable_read_dynamic_array_size
        | apply stable_read_load_bytes ].

Ltac kprim :=
  first
    [ apply keeps_ret; exact I
    | apply keeps_fail
    | apply keeps_store_int; solve [kfresh]
    | apply keeps_store_bool; solve [kfresh]
    | apply keeps_store_real; solve [kfresh]
    | apply keeps_store_ptr; solve [kfresh]
    | apply keeps_guc_free; solve [kfresh]
    | apply keeps_memcpy; solve [kfresh]
    | apply keeps_memset0; solve [kfresh]
    | apply keeps_lift_fuel
    | apply keeps_read; kread
    | apply keeps_for_each; intros ? ?
    | apply keeps_with_type; intros ? ? ].

Ltac kbind :=
  lazymatch goal with
  | |- keeps _ (bind (load_ptr _) _) _ =>
      eapply keeps_bind; [apply keeps_load_ptr; solve [kfresh] | intros ? ?]
  | |- keeps _ (bind (guc_malloc _) _) _ =>
      eapply keeps_bind; [apply keeps_guc_malloc | intros ? ?]
  | |- keeps _ (bind (guc_strdup _) _) _ =>
      eapply keeps_bind; [apply keeps_guc_strdup | intros ? ?]
  | |- keeps _ (bind _ _) _ => apply keeps_bind_any; [ | intros ? ]
  end.

Ltac kmatch :=
  match goal with
  | |- keeps _ (match ?x with _ => _ end) _ => first [destruct x eqn:? | destruct x]
  end.

Ltac krec :=
  match goal with
  | H : _ |- keeps _ _ _ => apply H; solve [kfresh]
  end.

Ltac ktac := repeat (cbv zeta; first [ kprim | kbind | krec | kmatch ]).

Section ParserFrame.

Variables (E : env) (flags : Z) (h0 : heap).


Lemma keeps_dup_fresh : forall fuel dest src ty,
  fresh_ptr h0 dest -> fresh_ptr h0 src ->
  keeps h0 (struct_dup_impl E fuel dest src ty) (fun _ => True).
Proof.
  induction fuel as [|fuel IH]; intros dest src ty Hd Hs; simpl; [apply keeps_fail|].
  unfold static_array_duplicate, dynamic_array_duplicate, struct_duplicate, slot.
  ktac.
Qed.













End ParserFrame.

Section Survival.

Variables (E : env) (flags : Z) (h0 : heap).

Let reg := guc_types_hashtab E.

Lemma no_ptr_fresh : forall bs, no_ptr bs = true -> fresh_bytes h0 bs.
Proof.
  intros bs H b o k Hin. unfold no_ptr in H.
  rewrite forallb_forall in H. specialize (H _ Hin). discriminate.
Qed.

(** Cloning a valid value that lies in [h0]. *)
Lemma keeps_dup_valid : forall k ty src dest,
  valid_value reg k h0 src ty = true -> fresh_ptr h0 dest ->
  forall fuel, keeps h0 (struct_dup_impl E fuel dest src ty) (fun _ => True).
Proof.
  induction k as [|k IH]; intros ty src dest Hv Hd fuel; [discriminate|].
  destruct fuel as [|fuel]; [apply keeps_fail|].
  cbn [valid_value] in Hv. cbn [struct_dup_impl].
  destruct (is_static_array_type ty).
  { unfold static_array_duplicate. fold reg.
    destruct (get_array_basic_type ty) as [b|]; [|discriminate].
    rewrite forallb_forall in Hv.
    apply keeps_for_each. intros i Hi. simpl. apply IH; [apply Hv; exact Hi | kfresh]. }
  destruct (is_dynamic_array_type ty).
  { unfold dynamic_array_duplicate. fold reg.
    destruct (loads (dynamic_array_size src) h0) as [len|] eqn:Hlen; [|discriminate].
    destruct (loads (load_ptr src) h0) as [datap|] eqn:Hdata; [|discriminate].
    destruct (get_array_basic_type ty) as [b|]; [|discriminate].
    rewrite forallb_forall in Hv.
    eapply keeps_bind;
      [apply keeps_read_old; [apply stable_read_dynamic_array_size | exact Hlen]|].
    intros arr_size Heq; cbv beta in Heq; subst arr_size. cbv zeta.
    destruct (len =? 0); [ktac|].
    eapply keeps_bind; [apply keeps_read_old; [apply stable_read_load_ptr | exact Hdata]|].
    intros datap' Heq; cbv beta in Heq; subst datap'.
    eapply keeps_bind; [apply keeps_guc_malloc|]. intros dstp Hdst.
    apply keeps_bind_any; [ktac|]. intros _.
    apply keeps_bind_any; [|intros _; ktac].
    apply keeps_for_each. intros i Hi. simpl. apply IH; [apply Hv; exact Hi | kfresh]. }
  unfold struct_duplicate. fold reg.
  destruct (get_type_definition reg ty) as [d|]; [|discriminate].
  destruct (cnt_fields d =? 0).
  - destruct (text_eqb ty (str "string")).
    + destruct (loads (load_ptr src) h0) as [q|] eqn:Hq; [|discriminate].
      eapply keeps_bind; [apply keeps_read_old; [apply stable_read_load_ptr | exact Hq]|].
      intros p Heq; cbv beta in Heq; subst p. destruct q as [q|]; ktac.
    + destruct (loads (load_bytes src (Z.to_nat (type_size d))) h0) as [bs|] eqn:Hbs;
        [|discriminate].
      unfold memcpy.
      destruct (type_size d =? 0); [ktac|].
      destruct (type_size d <? 0); [ktac|].
      eapply keeps_bind;
        [apply keeps_read_old; [apply stable_read_load_bytes | exact Hbs]|].
      intros bs' Heq; cbv beta in Heq; subst bs'. apply keeps_store_bytes; [exact Hd | apply no_ptr_fresh; exact Hv].
  - rewrite forallb_forall in Hv.
    apply keeps_for_each. intros s Hs. specialize (Hv s Hs).
    destruct s as [fd|]; [|discriminate]. simpl.
    eapply keeps_bind; [exact (keeps_ret h0 _ fd (fun x => x = fd) eq_refl)|].
    intros f Hf; cbv beta in Hf; subst f.
    apply IH; [exact Hv | kfresh].
Qed.

(** The previous value of a call: null, a block made during the call,
    or a valid value in [h0]. *)
Definition source_ok (ty : text) (prev : pointer) : Prop :=
  fresh_ptr h0 prev \/ exists k, valid_value reg k h0 prev ty = true.


Lemma keeps_dup_source : forall ty src dest fuel,
  source_ok ty src -> fresh_ptr h0 dest ->
  keeps h0 (struct_dup_impl E fuel dest src ty) (fun _ => True).
Proof.
  intros ty src dest fuel [Hs|[k Hk]] Hd.
  - apply keeps_dup_fresh; assumption.
  - eapply keeps_dup_valid; eassumption.
Qed.



Lemma keeps_struct_dup : forall fuel ty prev,
  source_ok ty prev -> keeps h0 (struct_dup E fuel prev ty) (fresh_ptr h0).
Proof.
  intros fuel ty prev Hs. unfold struct_dup.
  destruct prev as [pv|]; [|apply keeps_ret; exact I].
  eapply keeps_bind; [apply keeps_guc_malloc|]. intros dup Hdup.
  apply keeps_bind_any; [apply keeps_dup_source; assumption|].
  intros _. apply keeps_ret. exact Hdup.
Qed.



End Survival.




(** The value of the first scenario and the heap it lives in. *)
Definition v1_heap : heap :=
  match parse_composite demo_env 0 100 scenario1 (str "cluster") None [] with
  | Ok _ h => h
  | Fail _ => []
  end.

Definition v1 : pointer := Some (O, 0).




(** ** Duplication *)

(** A clone made by [struct_dup] of a valid value lies in new blocks
    only: the heap before the call is a prefix of the heap after it, the
    clone is a new block, and no new block holds a pointer to an earlier
    one, so the clone shares no string and no buffer with its source. *)
Theorem struct_dup_is_deep :
  forall E fuel structp type h k duplicate h',
    valid_value (guc_types_hashtab E) k h structp type = true ->
    struct_dup E fuel structp type h = Ok duplicate h' ->
    exists ext,
      h' = h ++ ext /\ fresh_ptr h duplicate /\
      forall bytes b o j,
        In (BData bytes) ext -> In (Frag (SPtr b o) j) bytes -> (List.length h <= b)%nat.
Proof.
  intros E fuel structp type h k duplicate h' Hv Hrun.
  assert (Hs : source_ok E h type structp) by (right; exists k; exact Hv).
  pose proof (keeps_struct_dup E h fuel type structp Hs) as Hk.
  assert (Hf : fresh_ext h []) by (intros bytes []).
  rewrite <- (app_nil_r h) in Hrun at 1.
  destruct (Hk [] _ _ Hf Hrun) as [ext [-> [Hf' Hp]]].
  exists ext. split; [reflexivity|]. split; [exact Hp|].
  intros bytes b o j Hin Hfr. exact (Hf' bytes Hin b o j Hfr).
Qed.

Lemma struct_dup_is_deep_witness :
  exists duplicate ext,
    valid_value demo_registry 10 v1_heap v1 (str "cluster") = true /\
    struct_dup demo_env 10 v1 (str "cluster") v1_heap = Ok duplicate (v1_heap ++ ext) /\
    fresh_ptr v1_heap duplicate.
Proof.
  assert (Hv : valid_value demo_registry 10 v1_heap v1 (str "cluster") = true)
    by (vm_compute; reflexivity).
  assert (Hrun : struct_dup demo_env 10 v1 (str "cluster") v1_heap
                 = Ok (Some (4%nat, 0))
                      (v1_heap ++ skipn 4 (match struct_dup demo_env 10 v1 (str "cluster") v1_heap with
                                           | Ok _ h => h | Fail _ => [] end)))
    by (vm_compute; reflexivity).
  do 2 eexists. split; [exact Hv|]. split; [exact Hrun|].
  destruct (struct_dup_is_deep demo_env 10 v1 (str "cluster") v1_heap 10%nat _ _ Hv Hrun)
    as [ext [_ [Hp _]]].
  exact Hp.
Defined.

(** ** Operations that only read *)



Lemma stable_read_slot : forall s, stable_read (slot s).
Proof. intros [f|]; [apply stable_read_ret | apply stable_read_fail]. Qed.





Lemma stable_read_collect_parts : forall A (l : list A) (body : A -> M (option text)),
  (forall x, stable_read (body x)) -> stable_read (collect_parts l body).
Proof.
  induction l as [|x l IH]; intros body H; simpl.
  - apply stable_read_ret.
  - apply stable_read_bind; [apply H|].
    intros [s|]; [|apply stable_read_ret].
    apply stable_read_bind; [apply IH; exact H|].
    intros [ss|]; apply stable_read_ret.
Qed.

Ltac sread2 :=
  repeat first
    [ apply stable_read_ret
    | apply stable_read_fail
    | apply stable_read_load_int
    | apply stable_read_load_ptr
    | apply stable_read_load_bool
    | apply stable_read_load_real
    | apply stable_read_load_str
    | apply stable_read_dynamic_array_size
    | apply stable_read_slot
    | apply stable_read_collect_parts; intro
    | apply stable_read_bind; [|intro]
    | match goal with
      | H : forall _ _ _, stable_read _ |- _ => apply H
      | |- stable_read (match ?x with _ => _ end) => destruct x
      end ].

Lemma stable_read_struct_to_str : forall E fuel structp type serialize,
  stable_read (struct_to_str E fuel structp type serialize).
Proof.
  intros E. induction fuel as [|fuel IH]; intros structp type serialize; simpl;
    [apply stable_read_fail|].
  unfold static_array_to_str, dynamic_array_to_str, structure_to_str, atomic_to_str.
  sread2.
Qed.

(** [struct_to_str] never changes the value it renders. *)
Theorem struct_to_str_reads_only :
  forall E fuel structp type serialize h res h',
    struct_to_str E fuel structp type serialize h = Ok res h' -> h' = h.
Proof.
  intros E fuel structp type serialize h res h' H.
  exact (proj1 (stable_read_struct_to_str E fuel structp type serialize h res h' H)).
Qed.

(** The text of the first scenario's value: the nine elements the
    literal left out are rendered with null strings and zero ports. *)
Definition v1_text : text :=
  let empty := ", {name: nil, ip: nil, port: 0}"%string in
  str ("{name: 'c1', size: 1, nodes: [{name: 'n0', ip: '10.0.0.1', port: 5432}"
       ++ empty ++ empty ++ empty ++ empty ++ empty ++ empty ++ empty ++ empty
       ++ empty ++ "]}").

Lemma struct_to_str_reads_only_witness :
  struct_to_str demo_env 100 v1 (str "cluster") false v1_heap
    = Ok (Some v1_text) v1_heap /\
  v1_heap = v1_heap.
Proof.
  assert (Hrun : struct_to_str demo_env 100 v1 (str "cluster") false v1_heap
                 = Ok (Some v1_text) v1_heap) by (vm_compute; reflexivity).
  split; [exact Hrun|].
  exact (struct_to_str_reads_only demo_env 100 v1 (str "cluster") false v1_heap
           (Some v1_text) v1_heap Hrun).
Defined.

(** ** What the parser returns *)

(** [Q] holds of every result of [m]. *)
Definition post {A} (m : M A) (Q : A -> Prop) : Prop :=
  forall h a h', m h = Ok a h' -> Q a.

Lemma post_ret : forall A (a : A) (Q : A -> Prop), Q a -> post (ret a) Q.
Proof. intros A a Q HQ h a' h' H. inversion H; subst. exact HQ. Qed.

Lemma post_fail : forall A f (Q : A -> Prop), post (fail f) Q.
Proof. intros A f Q h a h' H. discriminate. Qed.

Lemma post_bind : forall A B (m : M A) (k : A -> M B) Q,
  (forall a, post (k a) Q) -> post (bind m k) Q.
Proof.
  intros A B m k Q Hk h b h' H. unfold bind in H.
  destruct (m h) as [a h1|]; [|discriminate]. exact (Hk a h1 b h' H).
Qed.

Lemma post_bind_with : forall A B (m : M A) (k : A -> M B) P Q,
  post m P -> (forall a, P a -> post (k a) Q) -> post (bind m k) Q.
Proof.
  intros A B m k P Q Hm Hk h b h' H. unfold bind in H.
  destruct (m h) as [a h1|] eqn:E; [|discriminate].
  exact (Hk a (Hm _ _ _ E) h1 b h' H).
Qed.

(** The status is one of the two the callers test for. *)
Definition ok_or_err (r : parser_res * text) : Prop :=
  status (fst r) = PARSER_OK \/ status (fst r) = PARSER_ERR.

Ltac pstep :=
  first
    [ apply post_fail
    | apply post_ret; solve [left; reflexivity | right; reflexivity]
    | match goal with
      | H : _ |- post _ _ => apply H
      end
    | apply post_bind; intro
    | match goal with
      | |- post (match ?x with _ => _ end) _ => destruct x
      end ].

Ltac ptac := repeat (cbv zeta; pstep).

Section Status.

Variables (E : env) (flags : Z).

Lemma parse_array_element_status : forall rec buf strval ty res_arr prev,
  post (parse_array_element E rec buf strval ty res_arr prev) ok_or_err.
Proof. intros. unfold parse_array_element. ptac. Qed.

Lemma parse_struct_element_status : forall rec buf strval ty res_struct,
  post (parse_struct_element E rec buf strval ty res_struct) ok_or_err.
Proof. intros. unfold parse_struct_element. ptac. Qed.

Lemma parse_prepared_array_loop_status : forall fuel rec buf ty res_arr c i,
  post (parse_prepared_array_loop E fuel rec buf ty res_arr c i) ok_or_err.
Proof.
  induction fuel as [|fuel IH]; intros; simpl; [apply post_fail|]. ptac.
Qed.

Lemma parse_prepared_array_status : forall fuel rec buf start ty res_arr,
  post (parse_prepared_array E fuel rec buf start ty res_arr) ok_or_err.
Proof. intros. apply parse_prepared_array_loop_status. Qed.

Lemma parse_static_array_status : forall fuel rec buf strval ty res_arr,
  post (parse_static_array E fuel rec buf strval ty res_arr) ok_or_err.
Proof.
  intros. unfold parse_static_array.
  pose proof (parse_prepared_array_status fuel rec) as Hpa. ptac.
Qed.

Lemma parse_dynamic_array_status : forall fuel rec buf strval ty res_arr,
  post (parse_dynamic_array E fuel rec buf strval ty res_arr) ok_or_err.
Proof.
  intros. unfold parse_dynamic_array.
  pose proof (parse_prepared_array_status fuel rec) as Hpa. ptac.
Qed.

Lemma parse_extended_dynamic_array_status : forall fuel rec buf strval ty res_arr,
  post (parse_extended_dynamic_array E fuel rec buf strval ty res_arr) ok_or_err.
Proof.
  intros. unfold parse_extended_dynamic_array.
  pose proof (parse_prepared_array_status fuel rec) as Hpa. ptac.
Qed.

Lemma parse_atomic_type_status : forall buf strval ty result,
  post (parse_atomic_type E flags buf strval ty result) ok_or_err.
Proof. intros. unfold parse_atomic_type. ptac. Qed.

Lemma parse_structure_loop_status : forall fuel rec buf ty res_struct c,
  post (parse_structure_loop E fuel rec buf ty res_struct c) ok_or_err.
Proof.
  induction fuel as [|fuel IH]; intros; simpl; [apply post_fail|]. ptac.
Qed.

Lemma parse_composite_impl_status : forall fuel buf pos ty p,
  post (parse_composite_impl E flags fuel buf pos ty p) ok_or_err.
Proof.
  destruct fuel as [|fuel]; intros; simpl; [apply post_fail|].
  destruct (is_static_array_type ty); [apply parse_static_array_status|].
  destruct (is_dynamic_array_type ty).
  - destruct (Ascii.eqb (chr_at buf pos) "{");
      [apply parse_extended_dynamic_array_status | apply parse_dynamic_array_status].
  - unfold parse_structure.
    destruct (is_atomic_type ty); [apply parse_atomic_type_status|].
    destruct (check_braces buf pos "{" "}"); [apply parse_structure_loop_status|].
    apply post_ret. right. reflexivity.
Qed.

End Status.

(** The reading of a literal ends with [PARSER_OK] or [PARSER_ERR],
    never with one of the other two statuses. *)
Theorem parse_composite_impl_ok_or_err :
  forall E flags fuel value pos type result h r buf h',
    parse_composite_impl E flags fuel value pos type result h = Ok (r, buf) h' ->
    status r = PARSER_OK \/ status r = PARSER_ERR.
Proof.
  intros E flags fuel value pos type result h r buf h' H.
  exact (parse_composite_impl_status E flags fuel value pos type result h (r, buf) h' H).
Qed.

(** A three-element literal whose last element is not a number: the
    first two elements are stored, the call reports an error. *)
Definition err_at_third : parser_res :=
  {| status := PARSER_ERR; res_int := 0; res_str := O;
     res_name := []; parse_end := O |}.

Definition two_of_three : heap :=
  [BData [Frag (SInt 1) 0; Frag (SInt 1) 1; Frag (SInt 1) 2;
          Frag (SInt 1) 3; Frag (SInt 2) 0; Frag (SInt 2) 1;
          Frag (SInt 2) 2; Frag (SInt 2) 3; Zero; Zero; Zero; Zero]].

Lemma parse_composite_impl_ok_or_err_witness :
  parse_composite_impl demo_env 0 100 (str "[1, 2, x]") 0 (str "int[3]")
    (Some (O, 0)) [BData (repeat Zero 12)]
    = Ok (err_at_third, str "[1, 2, x]") two_of_three /\
  (status err_at_third = PARSER_OK \/ status err_at_third = PARSER_ERR).
Proof.
  pose (r := err_at_third). pose (h' := two_of_three).
  assert (Hrun : parse_composite_impl demo_env 0 100 (str "[1, 2, x]") 0 (str "int[3]")
                   (Some (O, 0)) [BData (repeat Zero 12)] = Ok (r, str "[1, 2, x]") h')
    by (vm_compute; reflexivity).
  split; [exact Hrun|].
  exact (parse_composite_impl_ok_or_err demo_env 0 100 (str "[1, 2, x]") O
           (str "int[3]") (Some (O, 0)) [BData (repeat Zero 12)] r (str "[1, 2, x]") h' Hrun).
Defined.

(** *** The result slot *)

Definition non_null (p : pointer) : Prop := p <> None.

Definition written_non_null (r : bool * out_result) : Prop :=
  exists b o, snd r = Written (Some (b, o)).

Lemma post_guc_malloc : forall n, post (guc_malloc n) non_null.
Proof.
  intros n h a h' H. unfold guc_malloc in H.
  destruct (n <? 0); inversion H; subst. discriminate.
Qed.

Lemma cstr_idem : forall l, cstr (cstr l) = cstr l.
Proof.
  induction l as [|c l IH]; simpl; [reflexivity|].
  destruct (Ascii.eqb c NUL) eqn:Ec; [reflexivity|].
  simpl. rewrite Ec, IH. reflexivity.
Qed.

Section Slot.

Variables (E : env) (flags : Z).

Lemma prepare_target_non_null : forall fuel ty prev,
  post (prepare_target E fuel ty prev) non_null.
Proof.
  intros fuel ty prev. unfold prepare_target.
  eapply post_bind_with; [apply post_guc_malloc|]. intros val Hval.
  apply post_bind. intros _. apply post_ret. exact Hval.
Qed.

Lemma struct_dup_non_null : forall fuel ty prev,
  prev <> None -> post (struct_dup E fuel prev ty) non_null.
Proof.
  intros fuel ty [pv|] Hp; [|contradiction]. unfold struct_dup.
  eapply post_bind_with; [apply post_guc_malloc|]. intros val Hval.
  apply post_bind. intros _. apply post_ret. exact Hval.
Qed.

(** What [parse_plain] leaves in the slot. *)
Lemma parse_plain_slot : forall fuel value ty prev,
  post (parse_plain E flags fuel value ty prev)
       (fun r => (fst r = true -> written_non_null r) /\
                 exists p, snd r = Written p).
Proof.
  intros fuel value ty prev. unfold parse_plain.
  eapply post_bind_with; [apply prepare_target_non_null|]. intros val Hval.
  eapply post_bind_with; [apply parse_composite_impl_status|].
  intros [parser_result buf] Hst. simpl in Hst. unfold ok_or_err in Hst. simpl in Hst.
  destruct (status parser_result).
  - apply post_ret. split; [|eexists; reflexivity].
    intros _. destruct val as [[b o]|]; [|contradiction Hval; reflexivity].
    exists b, o. reflexivity.
  - destruct Hst; discriminate.
  - apply post_bind. intros _. apply post_ret.
    split; [discriminate | eexists; reflexivity].
  - destruct Hst; discriminate.
Qed.

Definition slot_ok (r : bool * out_result) : Prop :=
  (fst r = true -> written_non_null r) /\ exists p, snd r = Written p.

Lemma patch_list_loop_slot : forall fuel rec strval cur ty last_value,
  (forall value prev, cstr value = value -> post (rec value ty prev) slot_ok) ->
  last_value <> None \/ Ascii.eqb (chr_at strval cur) NUL = false ->
  post (patch_list_loop fuel rec strval cur ty last_value)
       (fun r => slot_ok r /\ (last_value <> None -> written_non_null r)).
Proof.
  induction fuel as [|fuel IH]; intros rec strval cur ty last_value Hrec Hl; simpl;
    [apply post_fail|].
  destruct (Ascii.eqb (chr_at strval cur) NUL) eqn:Ec.
  - apply post_ret. destruct Hl as [Hl|Hl]; [|discriminate].
    destruct last_value as [[b o]|]; [|contradiction Hl; reflexivity].
    assert (Hw : written_non_null (true, Written (Some (b, o))))
      by (exists b, o; reflexivity).
    split; [split; [intros _; exact Hw | eexists; reflexivity] | intros _; exact Hw].
  - eapply post_bind_with; [apply Hrec; apply cstr_idem|].
    intros [ok next_value] [Hok [p Hp]]. simpl in Hok, Hp. subst next_value.
    destruct ok; simpl.
    + destruct (Hok eq_refl) as [b [o Hbo]]. simpl in Hbo. inversion Hbo; subst p.
      apply post_bind. intros _.
      intros h a h' Hrun.
      assert (Hnn : Some (b, o) <> None) by discriminate.
      destruct (IH rec (set_chr strval
                          (res_str (find_same_level_symbol strval cur ";")) NUL)
                   (S (res_str (find_same_level_symbol strval cur ";")))
                   ty (Some (b, o)) Hrec (or_introl Hnn) h a h' Hrun) as [Hs Hw].
      split; [exact Hs|]. intros _. exact (Hw Hnn).
    + apply post_ret. split; [split; [discriminate | eexists; reflexivity]|].
      intros Hnn. destruct last_value as [[b o]|]; [|contradiction Hnn; reflexivity].
      exists b, o. reflexivity.
Qed.

Lemma parse_composite_slot : forall fuel value ty prev,
  cstr value = value ->
  post (parse_composite E flags fuel value ty prev)
       (fun r => slot_ok r /\
                 (is_assignment_list value = true -> prev <> None ->
                  written_non_null r)).
Proof.
  induction fuel as [|fuel IH]; intros value ty prev Hc; simpl; [apply post_fail|].
  destruct value as [|c value]; [apply post_fail|].
  destruct (is_assignment_list (c :: value)) eqn:Hlist.
  - unfold parse_placeholder_patch_list.
    intros h a h' Hrun. unfold bind in Hrun.
    destruct (struct_dup E fuel prev ty h) as [last_value h1|] eqn:Hd; [|discriminate].
    assert (Hfirst : Ascii.eqb (chr_at (c :: value) 0) NUL = false).
    { simpl in Hc. unfold chr_at. simpl. destruct (Ascii.eqb c NUL); [discriminate|].
      reflexivity. }
    assert (Hrec : forall v p, cstr v = v -> post (parse_composite E flags fuel v ty p) slot_ok).
    { intros v p Hv h2 a2 h2' H2. exact (proj1 (IH v ty p Hv h2 a2 h2' H2)). }
    destruct (patch_list_loop_slot fuel _ (c :: value) O ty last_value Hrec
                (or_intror Hfirst) h1 a h' Hrun) as [Hs Hw].
    split; [exact Hs|]. intros _ Hprev. apply Hw.
    exact (struct_dup_non_null fuel ty prev Hprev h last_value h1 Hd).
  - intros h a h' Hrun.
    split; [exact (parse_plain_slot fuel (c :: value) ty prev h a h' Hrun)|].
    discriminate.
Qed.

End Slot.

(** A call of [parse_composite] that returns true has stored a value
    that is not null into [*result]. *)
Theorem parse_composite_success_stores_value :
  forall E flags fuel value type prev_val h result h',
    cstr value = value ->
    parse_composite E flags fuel value type prev_val h = Ok (true, result) h' ->
    exists b o, result = Written (Some (b, o)).
Proof.
  intros E flags fuel value type prev_val h result h' Hc Hrun.
  destruct (parse_composite_slot E flags fuel value type prev_val Hc h _ h' Hrun)
    as [[Hs _] _].
  exact (Hs eq_refl).
Qed.

Lemma parse_composite_success_stores_value_witness :
  cstr scenario1 = scenario1 /\
  parse_composite demo_env 0 100 scenario1 (str "cluster") None []
    = Ok (true, Written v1) v1_heap /\
  exists b o, Written v1 = Written (Some (b, o)).
Proof.
  assert (Hc : cstr scenario1 = scenario1) by (vm_compute; reflexivity).
  assert (Hrun : parse_composite demo_env 0 100 scenario1 (str "cluster") None []
                 = Ok (true, Written v1) v1_heap) by (vm_compute; reflexivity).
  split; [exact Hc|]. split; [exact Hrun|].
  exact (parse_composite_success_stores_value demo_env 0 100 scenario1
           (str "cluster") None [] (Written v1) v1_heap Hc Hrun).
Defined.

(** For a patch list with a previous value the slot never holds null:
    when a step fails the call returns false and hands back the value
    accumulated so far. *)
Theorem patch_list_hands_back_accumulator :
  forall E flags fuel value type prev_val h check result h',
    cstr value = value ->
    is_assignment_list value = true ->
    prev_val <> None ->
    parse_composite E flags fuel value type prev_val h = Ok (check, result) h' ->
    exists b o, result = Written (Some (b, o)).
Proof.
  intros E flags fuel value type prev_val h check result h' Hc Hlist Hprev Hrun.
  destruct (parse_composite_slot E flags fuel value type prev_val Hc h _ h' Hrun)
    as [_ Hw].
  exact (Hw Hlist Hprev).
Qed.

Definition bad_patch_list : text := str "{size: 7};{nodes: [11: {port: 1}]};".

Lemma patch_list_hands_back_accumulator_witness :
  exists h',
    cstr bad_patch_list = bad_patch_list /\
    is_assignment_list bad_patch_list = true /\
    v1 <> None /\
    parse_composite demo_env 0 100 bad_patch_list (str "cluster") v1 v1_heap
      = Ok (false, Written (Some (8%nat, 0))) h' /\
    exists b o, Written (Some (8%nat, 0)) = Written (Some (b, o)).
Proof.
  assert (Hc : cstr bad_patch_list = bad_patch_list) by (vm_compute; reflexivity).
  assert (Hl : is_assignment_list bad_patch_list = true) by (vm_compute; reflexivity).
  assert (Hp : v1 <> None) by discriminate.
  pose (h' := match parse_composite demo_env 0 100 bad_patch_list (str "cluster")
                      v1 v1_heap with
              | Ok _ h => h
              | Fail _ => []
              end).
  assert (Hrun : parse_composite demo_env 0 100 bad_patch_list (str "cluster") v1 v1_heap
                 = Ok (false, Written (Some (8%nat, 0))) h')
    by (vm_compute; reflexivity).
  exists h'. split; [exact Hc|]. split; [exact Hl|]. split; [exact Hp|].
  split; [exact Hrun|].
  exact (patch_list_hands_back_accumulator demo_env 0 100 bad_patch_list
           (str "cluster") v1 v1_heap false (Written (Some (8%nat, 0))) h'
           Hc Hl Hp Hrun).
Defined.
